(** * mcp-link: the OpenAPI-to-tool adapter (utils/adapter.go)

    A shallow embedding of [prefixRequired], [isRequiredField],
    [sanitizeToolName], the request handler built by [NewToolHandler] and
    the per-operation schema construction of [NewMCPFromCustomParser],
    followed by the properties the design document states about them.

    Go strings are modelled as lists of Unicode code points, the way
    [strings.ToLower] reads its argument.  The other functions of package
    [strings] are used with ASCII patterns or with whole placeholders, and
    on UTF-8 text they act on code points exactly as they act on bytes. *)

From Stdlib Require Import NArith ZArith Lia String Ascii.
From stdpp Require Import base option list gmap pretty.

Set Warnings "-register-all,-clear-no-such-hyp".
Local Open Scope N_scope.

(** ** Package [strings] *)

Module Strings.

Definition rune := N.
Definition GoString := list rune.

(** A literal of the source text, as a Go string. *)
Definition str (s : string) : GoString :=
  N_of_ascii <$> list_ascii_of_string s.

Fixpoint HasPrefix (s prefix : GoString) : bool :=
  match prefix, s with
  | [], _ => true
  | p :: ps, c :: cs => (p =? c) && HasPrefix cs ps
  | _ :: _, [] => false
  end.

Definition HasSuffix (s suffix : GoString) : bool :=
  HasPrefix (reverse s) (reverse suffix).

Fixpoint Contains (s substr : GoString) : bool :=
  HasPrefix s substr ||
  match s with
  | [] => false
  | _ :: t => Contains t substr
  end.

(** [replaceFrom old new s skip] scans [s] from the left; [skip] counts the
    code points of a match that are still to be consumed, so that matches
    never overlap. *)
Fixpoint replaceFrom (old new s : GoString) (skip : nat) : GoString :=
  match s with
  | [] => []
  | c :: t =>
      match skip with
      | S k => replaceFrom old new t k
      | O =>
          if HasPrefix s old
          then new ++ replaceFrom old new t (length old - 1)
          else c :: replaceFrom old new t 0
      end
  end.

(** [strings.ReplaceAll]: with an empty [old], [new] is inserted before
    every code point and at the end. *)
Definition ReplaceAll (s old new : GoString) : GoString :=
  match old with
  | [] => new ++ flat_map (fun c => c :: new) s
  | _ :: _ => replaceFrom old new s 0
  end.

Definition TrimSuffix (s suffix : GoString) : GoString :=
  if HasSuffix s suffix then take (length s - length suffix) s else s.

Definition TrimPrefix (s prefix : GoString) : GoString :=
  if HasPrefix s prefix then drop (length prefix) s else s.

(** [strings.ToLower] maps every code point through the lower-case table
    of package [unicode], which is passed as [lowerRune]. *)
Definition ToLower (lowerRune : rune -> rune) (s : GoString) : GoString :=
  lowerRune <$> s.

(** The ASCII part of the lower-case table: ['A'..'Z'] move to ['a'..'z'],
    every other code point below 128 is kept. *)
Definition isUpperASCII (r : rune) : bool := (65 <=? r) && (r <=? 90).

Definition asciiLower (r : rune) : rune :=
  if isUpperASCII r then r + 32 else r.

End Strings.
Export Strings.

(** ** [prefixRequired], [isRequiredField], [sanitizeToolName] *)

Definition prefixRequired (isRequired : bool) (desc : GoString) : GoString :=
  if isRequired && negb (HasPrefix desc (str "[required]"))
  then str "[required] " ++ desc
  else desc.

Fixpoint isRequiredField (field : GoString) (requiredList : list GoString) : bool :=
  match requiredList with
  | [] => false
  | name :: rest =>
      if bool_decide (name = field) then true else isRequiredField field rest
  end.

(** The loop [for strings.Contains(s, "__") { s = strings.ReplaceAll(s, "__", "_") }].
    Every iteration shortens [s], so [length s] iterations are enough
    (see [collapseUnderscores_done]). *)
Fixpoint collapseLoop (fuel : nat) (s : GoString) : GoString :=
  match fuel with
  | O => s
  | S n =>
      if Contains s (str "__")
      then collapseLoop n (ReplaceAll s (str "__") (str "_"))
      else s
  end.

Definition collapseUnderscores (s : GoString) : GoString :=
  collapseLoop (length s) s.

Definition sanitizeToolName (lowerRune : rune -> rune) (name : GoString) : GoString :=
  let s := ToLower lowerRune name in
  let s := ReplaceAll s (str " ") (str "_") in
  let s := ReplaceAll s (str "-") (str "_") in
  let s := ReplaceAll s (str "/") (str "_") in
  let s := ReplaceAll s (str ".") (str "_") in
  let s := ReplaceAll s (str "{") (str "") in
  let s := ReplaceAll s (str "}") (str "") in
  let s := ReplaceAll s (str ":") (str "_") in
  let s := ReplaceAll s (str "?") (str "") in
  let s := ReplaceAll s (str "&") (str "and") in
  let s := ReplaceAll s (str "=") (str "_eq_") in
  let s := ReplaceAll s (str "%") (str "_pct_") in
  let s := collapseUnderscores s in
  let s := TrimSuffix s (str "_") in
  let s := TrimPrefix s (str "_") in
  if bool_decide (s = str "") then str "unnamed_tool" else s.

(** The characters [sanitizeToolName] replaces or deletes. *)
Definition sanitizerSpecials : GoString := str " -/.{}:?&=%".

(** Lower-case ASCII letters, digits and the underscore. *)
Definition allowedRune (r : rune) : bool :=
  ((97 <=? r) && (r <=? 122)) || ((48 <=? r) && (r <=? 57)) || (r =? 95).

(** The characters [sanitizeToolName] turns into an underscore or deletes,
    and the underscore itself. *)
Definition separatorRunes : GoString := str " -/.:{}?_".

Section SanitizerShape.
Variable lowerRune : rune -> rune.

(** What the proofs use of the lower-case table of package [unicode]. *)
Definition lower_ascii : Prop := forall r, r < 128 -> lowerRune r = asciiLower r.
Definition lower_idempotent : Prop := forall r, lowerRune (lowerRune r) = lowerRune r.

(** The shape of every name the sanitizer returns. *)
Record Sanitized (y : GoString) : Prop := {
  san_nonempty : y <> str "";
  san_lower : Forall (fun r => lowerRune r = r) y;
  san_special : Forall (fun d => d ∉ sanitizerSpecials) y;
  san_double : Contains y (str "__") = false;
  san_prefix : HasPrefix y (str "_") = false;
  san_suffix : HasSuffix y (str "_") = false
}.

(** The value of [s] after the eleven replacements (line 45). *)
Definition replaced (name : GoString) : GoString :=
  let s := ToLower lowerRune name in
  let s := ReplaceAll s (str " ") (str "_") in
  let s := ReplaceAll s (str "-") (str "_") in
  let s := ReplaceAll s (str "/") (str "_") in
  let s := ReplaceAll s (str ".") (str "_") in
  let s := ReplaceAll s (str "{") (str "") in
  let s := ReplaceAll s (str "}") (str "") in
  let s := ReplaceAll s (str ":") (str "_") in
  let s := ReplaceAll s (str "?") (str "") in
  let s := ReplaceAll s (str "&") (str "and") in
  let s := ReplaceAll s (str "=") (str "_eq_") in
  ReplaceAll s (str "%") (str "_pct_").

(** The letters of the replacement texts and of the fallback name. *)
Definition insertedRunes : GoString := str "_andeqpctumol".

End SanitizerShape.

(** ** The request handler of [NewToolHandler] *)

Module Dispatcher.

(** Values of type [interface{}] as the JSON decoder produces them.  A
    [map[string]interface{}] is a reference: the handler assigns the maps
    found under the group keys to its own variables and may later write
    into them, so maps live in a store and values carry their address. *)
Definition loc := positive.

Inductive Value :=
| VNil
| VBool (b : bool)
| VNumber (n : Z)
| VString (s : GoString)
| VArray (items : list Value)
| VMap (l : loc).

Abbreviation Heap := (gmap loc (gmap GoString Value)).

Definition deref (h : Heap) (l : loc) : gmap GoString Value :=
  default ∅ (h !! l).

(** [make(map[string]interface{})] *)
Definition make (h : Heap) : loc * Heap :=
  let l := fresh (dom h) in (l, <[l := ∅]> h).

(** [m[k] = v] on the map stored at [l] *)
Definition assign (h : Heap) (l : loc) (k : GoString) (v : Value) : Heap :=
  <[l := <[k := v]> (deref h l)]> h.

Definition Error := GoString.

(** [url.Values] with its [Add] method *)
Abbreviation Values := (gmap GoString (list GoString)).

Definition Values_Add (q : Values) (key value : GoString) : Values :=
  <[key := default [] (q !! key) ++ [value]]> q.

(** [http.Header] with its [Set] method; [canon] is
    [textproto.CanonicalMIMEHeaderKey]. *)
Abbreviation Header := (gmap GoString (list GoString)).

Definition Header_Set (canon : GoString -> GoString)
    (hd : Header) (key value : GoString) : Header :=
  <[canon key := [value]]> hd.

Record Request := {
  req_Method : GoString;
  req_URL : GoString;
  req_Body : option GoString;
  req_Header : Header
}.

Record Response := {
  resp_StatusCode : Z;
  resp_Body : GoString + Error      (* what [io.ReadAll] returns *)
}.

Record CallToolResult := {
  Content : GoString;
  IsError : bool
}.

Definition NewToolResultText (text : GoString) : CallToolResult :=
  {| Content := text; IsError := false |}.

(** What the handler takes from the Go runtime, the standard library and
    the network.  [range_] is the order in which a [for ... range] loop
    visits a map, which Go leaves unspecified. *)
Record Lib := {
  range_ : forall V : Type, gmap GoString V -> list (GoString * V);
  Sprintf_v : Heap -> Value -> GoString;
  Sprintf_err : Error -> GoString;
  json_Marshal : Heap -> gmap GoString Value -> GoString + Error;
  URL : Type;
  url_Parse : GoString -> URL + Error;
  URL_Query : URL -> Values;
  URL_withRawQuery : URL -> GoString -> URL;
  URL_String : URL -> GoString;
  Values_Encode : Values -> GoString;
  CanonicalMIMEHeaderKey : GoString -> GoString;
  http_NewRequest_err : GoString -> GoString -> option Error;
  client_Do : Request -> Response + Error
}.

(** A [range] loop visits every entry of the map exactly once. *)
Definition range_ok (L : Lib) : Prop :=
  forall (V : Type) (m : gmap GoString V), range_ L V m ≡ₚ map_to_list m.

Section Handler.
Variable L : Lib.
Variables (method url : GoString) (extraHeaders : gmap GoString GoString).

(** [fmt.Sprintf("{%s}", paramName)] *)
Definition placeholder (paramName : GoString) : GoString :=
  str "{" ++ paramName ++ str "}".

(** [params[key].(map[string]interface{})] *)
Definition asMap (v : option Value) : option loc :=
  match v with
  | Some (VMap l) => Some l
  | _ => None
  end.

Record Groups := {
  heap : Heap;
  pathParams : loc;
  queryParams : loc;
  bodyParams : loc
}.

Definition len {V} (m : gmap GoString V) : nat := size m.

(** One iteration of the legacy loop over [params]. *)
Definition classifyLegacy (p b : loc) (h : Heap) (kv : GoString * Value) : Heap :=
  let '(paramName, paramValue) := kv in
  if Contains url (placeholder paramName)
  then assign h p paramName paramValue
  else assign h b paramName paramValue.

(** Lines 59-83: the three parameter maps. *)
Definition classify (h : Heap) (params : gmap GoString Value) : Groups :=
  let '(p0, h) := make h in
  let '(q0, h) := make h in
  let '(b0, h) := make h in
  let p := default p0 (asMap (params !! str "pathNames")) in
  let q := default q0 (asMap (params !! str "searchParams")) in
  let b := default b0 (asMap (params !! str "requestBody")) in
  let h :=
    if (len (deref h p) =? 0)%nat && (len (deref h q) =? 0)%nat
       && (len (deref h b) =? 0)%nat
    then foldl (classifyLegacy p b) h (range_ L Value params)
    else h in
  {| heap := h; pathParams := p; queryParams := q; bodyParams := b |}.

(** The type switch of the path loop. *)
Definition pathValue (h : Heap) (paramValue : Value) : GoString :=
  match paramValue with
  | VString v => v
  | VNil => str ""
  | v => Sprintf_v L h v
  end.

(** One iteration of the loop over [pathParams]. *)
Definition substitutePath (h : Heap) (finalURL : GoString)
    (kv : GoString * Value) : GoString :=
  let '(paramName, paramValue) := kv in
  if Contains finalURL (placeholder paramName)
  then ReplaceAll finalURL (placeholder paramName) (pathValue h paramValue)
  else finalURL.

(** Lines 85-100. *)
Definition resolvePath (h : Heap) (pathEntries : list (GoString * Value)) : GoString :=
  foldl (substitutePath h) url pathEntries.

(** One iteration of the loop over [queryParams]. *)
Definition addQuery (h : Heap) (q : Values) (kv : GoString * Value) : Values :=
  let '(paramName, paramValue) := kv in
  match paramValue with
  | VString v => Values_Add q paramName v
  | VNil => q
  | v => Values_Add q paramName (Sprintf_v L h v)
  end.

(** Lines 102-122. *)
Definition resolveQuery (h : Heap) (finalURL : GoString)
    (query : gmap GoString Value) : GoString + Error :=
  if (0 <? len query)%nat then
    match url_Parse L finalURL with
    | inr err => inr err
    | inl parsedURL =>
        let q := foldl (addQuery h) (URL_Query L parsedURL) (range_ L Value query) in
        inl (URL_String L (URL_withRawQuery L parsedURL (Values_Encode L q)))
    end
  else inl finalURL.

(** Lines 124-131: [reqBody], [None] standing for the nil reader. *)
Definition marshalBody (h : Heap) (body : gmap GoString Value)
    : option GoString + Error :=
  if (0 <? len body)%nat then
    match json_Marshal L h body with
    | inr err => inr err
    | inl jsonParams => inl (Some jsonParams)
    end
  else inl None.

(** [http.NewRequestWithContext]: an empty method means GET, and the
    request starts with no header. *)
Definition NewRequest (finalURL : GoString) (reqBody : option GoString)
    : Request + Error :=
  match http_NewRequest_err L method finalURL with
  | Some err => inr err
  | None =>
      inl {| req_Method := if bool_decide (method = str "") then str "GET" else method;
             req_URL := finalURL;
             req_Body := reqBody;
             req_Header := ∅ |}
  end.

(** Lines 138-143. *)
Definition setHeaders (req : Request) : Request :=
  let hd := req_Header req in
  let hd :=
    match req_Body req with
    | Some _ => Header_Set (CanonicalMIMEHeaderKey L) hd
                  (str "Content-Type") (str "application/json")
    | None => hd
    end in
  let hd := foldl (fun hd kv => Header_Set (CanonicalMIMEHeaderKey L) hd kv.1 kv.2)
              hd (range_ L GoString extraHeaders) in
  {| req_Method := req_Method req; req_URL := req_URL req;
     req_Body := req_Body req; req_Header := hd |}.

Definition errorText (phase : string) (err : Error) : CallToolResult :=
  NewToolResultText (str phase ++ Sprintf_err L err).

(** Lines 102-143: from the URL left by the path loop to the request
    with its headers, or the result returned early. *)
Definition assembleRequest (h : Heap) (finalURL : GoString)
    (query body : gmap GoString Value) : Request + CallToolResult :=
  match resolveQuery h finalURL query with
  | inr err => inr (errorText "Error parsing URL: " err)
  | inl finalURL =>
      match marshalBody h body with
      | inr err => inr (errorText "Error marshaling body parameters: " err)
      | inl reqBody =>
          match NewRequest finalURL reqBody with
          | inr err => inr (errorText "Error creating request: " err)
          | inl req => inl (setHeaders req)
          end
      end
  end.

(** Lines 59-143: the request the handler is about to send, or the
    result it returns early. *)
Definition buildRequest (h : Heap) (params : gmap GoString Value)
    : Request + CallToolResult :=
  let g := classify h params in
  let h := heap g in
  let finalURL := resolvePath h (range_ L Value (deref h (pathParams g))) in
  assembleRequest h finalURL (deref h (queryParams g)) (deref h (bodyParams g)).

(** Lines 145-157. *)
Definition execute (req : Request) : CallToolResult :=
  match client_Do L req with
  | inr err => errorText "Error executing request: " err
  | inl resp =>
      match resp_Body resp with
      | inr err => errorText "Error reading response: " err
      | inl body => NewToolResultText body
      end
  end.

(** The closure returned by [NewToolHandler]: the result and the [error]. *)
Definition NewToolHandler (h : Heap) (params : gmap GoString Value)
    : CallToolResult * option Error :=
  match buildRequest h params with
  | inr early => (early, None)
  | inl req => (execute req, None)
  end.

End Handler.

(** The contents of the map found under a group key, empty when the key
    is missing or does not hold a map. *)
Definition groupOf (h : Heap) (params : gmap GoString Value) (key : string)
    : gmap GoString Value :=
  from_option (deref h) ∅ (asMap (params !! str key)).

(** The test of line 74, on the arguments as received. *)
Definition allGroupsEmpty (h : Heap) (params : gmap GoString Value) : bool :=
  (len (groupOf h params "pathNames") =? 0)%nat
  && (len (groupOf h params "searchParams") =? 0)%nat
  && (len (groupOf h params "requestBody") =? 0)%nat.

(** The legacy form proper: no group key holds a map. *)
Definition flatArguments (params : gmap GoString Value) : Prop :=
  asMap (params !! str "pathNames") = None
  /\ asMap (params !! str "searchParams") = None
  /\ asMap (params !! str "requestBody") = None.

(** The test of the legacy loop (line 77) on an entry of the arguments. *)
Definition isPathArgument (url : GoString) (kv : GoString * Value) : bool :=
  Contains url (placeholder kv.1).

(** The text a query parameter is added with, [None] for the nil value
    the loop skips. *)
Definition queryValue (L : Lib) (h : Heap) (paramValue : Value) : option GoString :=
  match paramValue with
  | VString v => Some v
  | VNil => None
  | v => Some (Sprintf_v L h v)
  end.

(** The query values once every non-nil parameter has been appended to
    the values the URL already had, key by key. *)
Definition appendQuery (L : Lib) (h : Heap) (old : Values)
    (query : gmap GoString Value) : Values :=
  merge (fun o v =>
           match v ≫= queryValue L h with
           | Some text => Some (default [] o ++ [text])
           | None => o
           end) old query.

(** The headers set before the extra headers are applied. *)
Definition contentTypeHeader (L : Lib) (reqBody : option GoString) : Header :=
  match reqBody with
  | Some _ => {[ CanonicalMIMEHeaderKey L (str "Content-Type") := [str "application/json"] ]}
  | None => ∅
  end.

(** The substitution as the design document words it, to compare with
    [resolvePath]: one pass over the template, in which every placeholder
    of a path parameter is replaced by the rendered value of that
    parameter and everything else is kept. *)
Fixpoint substituteTemplate (render : Value -> GoString)
    (entries : list (GoString * Value)) (template : GoString) (skip : nat)
    : GoString :=
  match template with
  | [] => []
  | c :: t =>
      match skip with
      | S n => substituteTemplate render entries t n
      | O =>
          match find (fun kv => HasPrefix template (placeholder kv.1)) entries with
          | Some kv =>
              render kv.2
              ++ substituteTemplate render entries t (length (placeholder kv.1) - 1)
          | None => c :: substituteTemplate render entries t 0
          end
      end
  end.

(** *** Well-formed templates

    A template whose braces delimit placeholders is a sequence of literal
    texts and placeholders, none of which contains a brace. *)
Inductive Token :=
| Lit (text : GoString)
| Hole (name : GoString).

Definition braceFree (s : GoString) : Prop :=
  Forall (fun c => c ≠ 123 /\ c ≠ 125) s.

Definition tokenText (t : Token) : GoString :=
  match t with
  | Lit text => text
  | Hole name => placeholder name
  end.

Definition flatten (ts : list Token) : GoString := flat_map tokenText ts.

Definition tokenOK (t : Token) : Prop :=
  match t with
  | Lit text => braceFree text
  | Hole name => braceFree name
  end.

(** A placeholder is filled with the rendered value of the parameter of
    that name, if there is one. *)
Definition fill (render : Value -> GoString) (entries : list (GoString * Value))
    (t : Token) : Token :=
  match t with
  | Lit _ => t
  | Hole name =>
      match find (fun kv => bool_decide (name = kv.1)) entries with
      | Some kv => Lit (render kv.2)
      | None => t
      end
  end.

(** One substitution, token by token. *)
Definition substToken (k v : GoString) (t : Token) : Token :=
  match t with
  | Lit _ => t
  | Hole n => if bool_decide (n = k) then Lit v else t
  end.

(** *** A small instance of [Lib]

    Used to run the handler on concrete inputs: maps are visited in the
    order of [map_to_list], numbers print in decimal, the JSON encoder
    covers maps of scalars whose strings need no escaping, a URL is split
    at its first question mark and is expected to carry no query of its
    own, and the network answers every request with status 404. *)
Module Demo.

Definition quote : GoString := [34].

Definition Sprintf_v (h : Heap) (v : Value) : GoString :=
  match v with
  | VNil => str "<nil>"
  | VBool true => str "true"
  | VBool false => str "false"
  | VNumber n => str (pretty n)
  | VString s => s
  | VArray _ => str "[...]"
  | VMap _ => str "map[...]"
  end.

Definition encodeScalar (v : Value) : option GoString :=
  match v with
  | VNil => Some (str "null")
  | VBool true => Some (str "true")
  | VBool false => Some (str "false")
  | VNumber n => Some (str (pretty n))
  | VString s => Some (quote ++ s ++ quote)
  | VArray _ | VMap _ => None
  end.

Fixpoint joinWith (sep : GoString) (parts : list GoString) : GoString :=
  match parts with
  | [] => []
  | [x] => x
  | x :: rest => x ++ sep ++ joinWith sep rest
  end.

Definition json_Marshal (h : Heap) (m : gmap GoString Value) : GoString + Error :=
  match mapM (fun kv : GoString * Value =>
                v ← encodeScalar kv.2; Some (quote ++ kv.1 ++ quote ++ str ":" ++ v))
             (map_to_list m) with
  | Some fields => inl (str "{" ++ joinWith (str ",") fields ++ str "}")
  | None => inr (str "json: unsupported value")
  end.

Fixpoint cut (sep : rune) (s : GoString) : GoString * GoString :=
  match s with
  | [] => ([], [])
  | c :: t => if c =? sep then ([], t) else let '(a, b) := cut sep t in (c :: a, b)
  end.

Definition url_Parse (s : GoString) : (GoString * GoString) + Error :=
  inl (cut 63 s).

Definition URL_String (u : GoString * GoString) : GoString :=
  if bool_decide (u.2 = []) then u.1 else u.1 ++ str "?" ++ u.2.

Definition escape (s : GoString) : GoString :=
  (fun c => if c =? 32 then 43 else c) <$> s.

Definition Values_Encode (q : Values) : GoString :=
  joinWith (str "&")
    (flat_map (fun kvs : GoString * list GoString =>
                 (fun v => escape kvs.1 ++ str "=" ++ escape v) <$> kvs.2)
       (map_to_list q)).

Definition lib : Lib :=
  {| range_ := fun V m => map_to_list m;
     Dispatcher.Sprintf_v := Sprintf_v;
     Sprintf_err := fun err => err;
     Dispatcher.json_Marshal := json_Marshal;
     URL := GoString * GoString;
     Dispatcher.url_Parse := url_Parse;
     URL_Query := fun _ => ∅;
     URL_withRawQuery := fun u raw => (u.1, raw);
     Dispatcher.URL_String := URL_String;
     Dispatcher.Values_Encode := Values_Encode;
     CanonicalMIMEHeaderKey := fun k => k;
     http_NewRequest_err := fun _ _ => None;
     client_Do := fun req =>
       inl {| resp_StatusCode := 404;
              resp_Body := inl (str "not found: " ++ req_URL req) |} |}.



End Demo.

End Dispatcher.

(** ** The schema construction of [NewMCPFromCustomParser] *)

Module Translator.
Import Dispatcher.

(** Modelled from the spec: the declarations of [Schema], [Parameter],
    [MediaType], [RequestBody], [APIEndpoint] and [APIInfo] live in the
    parser's file; the fields below are the ones the adapter reads, with
    the nil-able ones as options. *)
Inductive Schema := {
  Type_ : GoString;
  SchemaDescription : GoString;
  Enum : option (list Value);
  Format : GoString;
  Default : option Value;
  Items : option Schema;
  Properties : option (gmap GoString Schema);
  Required : list GoString
}.

Record APIParameter := {
  Name : GoString;
  In : GoString;
  ParamRequired : bool;
  ParamDescription : GoString;
  ParamSchema : Schema
}.

Record MediaType := { MediaSchema : option Schema }.

Record RequestBody := { BodyContent : gmap GoString MediaType }.

Record APIEndpoint := {
  OperationID : GoString;
  Summary : GoString;
  Description : GoString;
  Method : GoString;
  Path : GoString;
  APIParameters : list APIParameter;
  RequestBody_ : option RequestBody
}.

Record APIInfo := { Title : GoString; Version : GoString }.

(** The property object [prop] built for a parameter or a body property. *)
Record PropObject := {
  prop_type : GoString;
  prop_description : GoString;
  prop_enum : option (list Value);
  prop_format : option GoString;
  prop_default : option Value;
  prop_items : option Schema;
  prop_properties : option (gmap GoString Schema)
}.

(** One [mcp.WithObject] option: a named parameter group. *)
Record ObjectOption := {
  obj_name : GoString;
  obj_description : GoString;
  obj_properties : gmap GoString PropObject;
  obj_required : list GoString
}.

(** A registered tool: the schema given to [mcp.NewTool] and the arguments
    of [NewToolHandler] for its handler. *)
Record Tool := {
  tool_name : GoString;
  tool_description : GoString;
  tool_objects : list ObjectOption;
  handler_method : GoString;
  handler_url : GoString
}.

(** Lines 186-204 and 246-264, which differ only in where the description
    and the required flag come from. *)
Definition makeProp (required : bool) (desc : GoString) (sch : Schema) : PropObject :=
  {| prop_type := Type_ sch;
     prop_description := prefixRequired required desc;
     prop_enum := Enum sch;
     prop_format := if bool_decide (Format sch = str "") then None else Some (Format sch);
     prop_default := Default sch;
     prop_items := Items sch;
     prop_properties := Properties sch |}.

Record ParamGroups := {
  queryProps : gmap GoString PropObject;
  requiredQueryParams : list GoString;
  pathProps : gmap GoString PropObject;
  requiredPathParams : list GoString
}.

(** One iteration of the loop over [api.Parameters]. *)
Definition addParameter (g : ParamGroups) (param : APIParameter) : ParamGroups :=
  let prop := makeProp (ParamRequired param) (ParamDescription param) (ParamSchema param) in
  if bool_decide (In param = str "query") then
    {| queryProps := <[Name param := prop]> (queryProps g);
       requiredQueryParams :=
         if ParamRequired param then requiredQueryParams g ++ [Name param]
         else requiredQueryParams g;
       pathProps := pathProps g;
       requiredPathParams := requiredPathParams g |}
  else if bool_decide (In param = str "path") then
    {| queryProps := queryProps g;
       requiredQueryParams := requiredQueryParams g;
       pathProps := <[Name param := prop]> (pathProps g);
       requiredPathParams :=
         if ParamRequired param then requiredPathParams g ++ [Name param]
         else requiredPathParams g |}
  else g.

Definition noParams : ParamGroups :=
  {| queryProps := ∅; requiredQueryParams := [];
     pathProps := ∅; requiredPathParams := [] |}.

Section Build.
Variable L : Lib.
Variable lowerRune : rune -> rune.

(** One iteration of the loop over [mediaType.Schema.Properties]. *)
Definition addBodyProperty (required : list GoString)
    (acc : gmap GoString PropObject * list GoString) (kv : GoString * Schema)
    : gmap GoString PropObject * list GoString :=
  let '(propName, propSchema) := kv in
  let prop := makeProp (isRequiredField propName required)
                (SchemaDescription propSchema) propSchema in
  (<[propName := prop]> acc.1,
   if isRequiredField propName required then acc.2 ++ [propName] else acc.2).

(** One iteration of the loop over [api.RequestBody.Content]. *)
Definition addMediaType (acc : gmap GoString PropObject * list GoString)
    (kv : GoString * MediaType) : gmap GoString PropObject * list GoString :=
  match MediaSchema kv.2 with
  | None => acc
  | Some sch =>
      foldl (addBodyProperty (Required sch)) acc
        (range_ L Schema (default ∅ (Properties sch)))
  end.

(** Lines 220-237: the options for the query and the path group. *)
Definition paramOptions (g : ParamGroups) : list ObjectOption :=
  (if (0 <? size (queryProps g))%nat
   then [ {| obj_name := str "searchParams";
             obj_description := str "url parameters for the tool";
             obj_properties := queryProps g;
             obj_required := requiredQueryParams g |} ]
   else []) ++
  (if (0 <? size (pathProps g))%nat
   then [ {| obj_name := str "pathNames";
             obj_description := str "path parameters for the tool";
             obj_properties := pathProps g;
             obj_required := requiredPathParams g |} ]
   else []).

(** Lines 239-279: the option for the request body. *)
Definition bodyOptions (rb : option RequestBody) : list ObjectOption :=
  match rb with
  | Some body =>
      if (0 <? size (BodyContent body))%nat then
        let '(bodyProps, requiredBodyParams) :=
          foldl addMediaType (∅, []) (range_ L MediaType (BodyContent body)) in
        [ {| obj_name := str "requestBody";
             obj_description := str "request body for the tool";
             obj_properties := bodyProps;
             obj_required := requiredBodyParams |} ]
      else []
  | None => []
  end.

(** The body of the loop over [parser.APIs()]: the tool registered for
    one operation. *)
Definition buildTool (baseURL prefix : GoString) (api : APIEndpoint) : Tool :=
  {| tool_name :=
       sanitizeToolName lowerRune (prefix ++ str "_" ++ OperationID api);
     tool_description :=
       OperationID api ++ str " " ++ Summary api ++ str " " ++ Description api;
     tool_objects :=
       paramOptions (foldl addParameter noParams (APIParameters api))
       ++ bodyOptions (RequestBody_ api);
     handler_method := Method api;
     handler_url := baseURL ++ Path api |}.

(** The tools of a document, in the order of [parser.APIs()]. *)
Definition NewMCPFromCustomParser (baseURL : GoString) (info : APIInfo)
    (apis : list APIEndpoint) : list Tool :=
  let prefix := sanitizeToolName lowerRune (Title info) in
  buildTool baseURL prefix <$> apis.

(** The group of a tool with a given name, if the tool has one. *)
Definition group (t : Tool) (name : string) : option ObjectOption :=
  head (filter (fun o => obj_name o = str name) (tool_objects t)).

End Build.

(** The property object of a parameter (lines 186-204). *)
Definition paramProp (param : APIParameter) : PropObject :=
  makeProp (ParamRequired param) (ParamDescription param) (ParamSchema param).

(** The property object of a body property (lines 246-264). *)
Definition bodyProp (required : list GoString) (propName : GoString)
    (propSchema : Schema) : PropObject :=
  makeProp (isRequiredField propName required)
    (SchemaDescription propSchema) propSchema.

(** Every name of a required list names a property. *)
Definition requiredHaveProps (props : gmap GoString PropObject)
    (required : list GoString) : Prop :=
  forall n, n ∈ required -> is_Some (props !! n).

End Translator.

(** ** The earlier [NewMCPFromCustomParser] (unnamed/part_000, lines 195-293)

    The repository also holds the previous version of the adapter.  Its
    [sanitizeToolName] and [NewToolHandler] are the ones above; its
    translator differs: the server and tool names carry the prefix
    [mcplink_], descriptions are copied as they are, a required parameter
    gets the key [required] in its property object, and the groups have no
    required list. *)

Module Previous.
Import Dispatcher Translator.

(** A property object; [old_required] says whether the key [required] is
    set (it is only ever set to [true]). *)
Record OldProp := {
  old_type : GoString;
  old_description : GoString;
  old_enum : option (list Value);
  old_format : option GoString;
  old_default : option Value;
  old_items : option Schema;
  old_properties : option (gmap GoString Schema);
  old_required : bool
}.

Record OldObjectOption := {
  old_name : GoString;
  old_group_description : GoString;
  old_props : gmap GoString OldProp
}.

Record OldTool := {
  old_tool_name : GoString;
  old_tool_description : GoString;
  old_tool_objects : list OldObjectOption;
  old_handler_method : GoString;
  old_handler_url : GoString
}.

(** Lines 218-239 and 261-279. *)
Definition oldProp (required : bool) (desc : GoString) (sch : Schema) : OldProp :=
  {| old_type := Type_ sch;
     old_description := desc;
     old_enum := Enum sch;
     old_format := if bool_decide (Format sch = str "") then None else Some (Format sch);
     old_default := Default sch;
     old_items := Items sch;
     old_properties := Properties sch;
     old_required := required |}.

(** The property object of a parameter (lines 218-239). *)
Definition oldParamProp (param : APIParameter) : OldProp :=
  oldProp (ParamRequired param) (ParamDescription param) (ParamSchema param).

(** One iteration of the loop over [api.Parameters]: [query_props] and
    [path_props]. *)
Definition oldAddParameter (acc : gmap GoString OldProp * gmap GoString OldProp)
    (param : APIParameter) : gmap GoString OldProp * gmap GoString OldProp :=
  let prop := oldParamProp param in
  if bool_decide (In param = str "query") then (<[Name param := prop]> acc.1, acc.2)
  else if bool_decide (In param = str "path") then (acc.1, <[Name param := prop]> acc.2)
  else acc.

Section Build.
Variable L : Lib.
Variable lowerRune : rune -> rune.

(** One iteration of the loop over [api.RequestBody.Content]. *)
Definition oldAddMediaType (props : gmap GoString OldProp)
    (kv : GoString * MediaType) : gmap GoString OldProp :=
  match MediaSchema kv.2 with
  | None => props
  | Some sch =>
      foldl (fun props (pv : GoString * Schema) =>
               <[pv.1 := oldProp false (SchemaDescription pv.2) pv.2]> props)
        props (range_ L Schema (default ∅ (Properties sch)))
  end.

Definition oldBuildTool (baseURL prefix : GoString) (api : APIEndpoint) : OldTool :=
  let '(query_props, path_props) :=
    foldl oldAddParameter (∅, ∅) (APIParameters api) in
  {| old_tool_name :=
       sanitizeToolName lowerRune (prefix ++ str "_" ++ OperationID api);
     old_tool_description :=
       OperationID api ++ str " " ++ Summary api ++ str " " ++ Description api;
     old_tool_objects :=
       (if (0 <? size query_props)%nat
        then [ {| old_name := str "searchParams";
                  old_group_description := str "url parameters for the tool";
                  old_props := query_props |} ]
        else [])
       ++ (if (0 <? size path_props)%nat
           then [ {| old_name := str "pathNames";
                     old_group_description := str "path parameters for the tool";
                     old_props := path_props |} ]
           else [])
       ++ match RequestBody_ api with
          | Some body =>
              if (0 <? size (BodyContent body))%nat
              then [ {| old_name := str "requestBody";
                        old_group_description := str "request body for the tool";
                        old_props :=
                          foldl oldAddMediaType ∅
                            (range_ L MediaType (BodyContent body)) |} ]
              else []
          | None => []
          end;
     old_handler_method := Method api;
     old_handler_url := baseURL ++ Path api |}.

Definition NewMCPFromCustomParser (baseURL : GoString) (info : APIInfo)
    (apis : list APIEndpoint) : list OldTool :=
  let prefix := str "mcplink_" ++ sanitizeToolName lowerRune (Title info) in
  oldBuildTool baseURL prefix <$> apis.

End Build.

End Previous.

(** * Properties *)

(** ** Facts about package [strings] *)

Section StringFacts.
Implicit Types (s t old new p : GoString) (c d : rune).

Lemma HasPrefix_spec s p : HasPrefix s p = true <-> exists t, s = p ++ t.
Proof.
  revert s; induction p as [|a p IH]; intros s.
  - split; [eauto|by destruct s].
  - destruct s as [|c s]; simpl.
    + split; [done|]. intros [t Ht]; discriminate.
    + rewrite andb_true_iff, N.eqb_eq, IH. split.
      * intros [-> [t ->]]. eauto.
      * intros [t Ht]. simplify_eq. eauto.
Qed.

Lemma HasPrefix_nil s : HasPrefix s [] = true.
Proof. by destruct s. Qed.

Lemma Contains_spec s p :
  Contains s p = true <-> exists a b, s = a ++ p ++ b.
Proof.
  induction s as [|c s IH]; cbn [Contains].
  - rewrite orb_false_r, HasPrefix_spec. split.
    + intros [t Ht]. exists [], t. done.
    + intros (a & b & Hab). destruct a; [|done]. eauto.
  - rewrite orb_true_iff, HasPrefix_spec, IH. split.
    + intros [[t Ht]|(a & b & ->)].
      * exists [], t. done.
      * exists (c :: a), b. done.
    + intros (a & b & Hab). destruct a as [|c' a]; simpl in Hab.
      * left. eauto.
      * right. simplify_eq. eauto.
Qed.

Lemma Contains_false_tail c s p :
  Contains (c :: s) p = false -> Contains s p = false.
Proof. cbn [Contains]. by intros [_ ?]%orb_false_iff. Qed.

Lemma Contains_take n s p : Contains (take n s) p = true -> Contains s p = true.
Proof.
  rewrite !Contains_spec. intros (a & b & H).
  exists a, (b ++ drop n s).
  rewrite <-(take_drop n s) at 1. rewrite H. by rewrite <-!app_assoc.
Qed.

Lemma Contains_drop n s p : Contains (drop n s) p = true -> Contains s p = true.
Proof.
  rewrite !Contains_spec. intros (a & b & H).
  exists (take n s ++ a), b.
  rewrite <-(take_drop n s) at 1. rewrite H. by rewrite <-!app_assoc.
Qed.

Lemma replaceFrom_Forall (P : rune -> Prop) old new s k :
  Forall P s -> Forall P new -> Forall P (replaceFrom old new s k).
Proof.
  intros Hs Hnew. revert k.
  induction Hs as [|c s Hc Hs IH]; intros k; cbn [replaceFrom]; [done|].
  destruct k; [|apply IH].
  destruct (HasPrefix (c :: s) old).
  - apply Forall_app; auto.
  - constructor; auto.
Qed.

Lemma ReplaceAll_Forall (P : rune -> Prop) s old new :
  Forall P s -> Forall P new -> Forall P (ReplaceAll s old new).
Proof.
  intros Hs Hnew. destruct old as [|o old]; simpl.
  - apply Forall_app. split; [done|].
    induction Hs; simpl; [done|]. constructor; [done|]. by apply Forall_app.
  - by apply replaceFrom_Forall.
Qed.

(** Replacing a one-rune pattern removes the rune, unless the replacement
    brings it back. *)
Lemma ReplaceAll_rune_gone c s new :
  Forall (fun d => d ≠ c) new -> Forall (fun d => d ≠ c) (ReplaceAll s [c] new).
Proof.
  intros Hnew. unfold ReplaceAll.
  induction s as [|a s IH]; cbn [replaceFrom HasPrefix length Nat.sub]; [done|].
  rewrite HasPrefix_nil, andb_true_r. destruct (N.eqb_spec c a) as [->|Hne].
  - apply Forall_app; auto.
  - constructor; [congruence|done].
Qed.

Lemma replaceFrom_absent old new s :
  Contains s old = false -> replaceFrom old new s 0 = s.
Proof.
  induction s as [|a s IH]; [done|]. intros H.
  pose proof (Contains_false_tail _ _ _ H) as Ht.
  cbn [Contains] in H. apply orb_false_iff in H as [H _].
  cbn [replaceFrom]. rewrite H. by rewrite IH.
Qed.

Lemma ReplaceAll_absent s old new :
  Contains s old = false -> ReplaceAll s old new = s.
Proof.
  destruct old as [|o old].
  - destruct s; simpl; discriminate.
  - apply replaceFrom_absent.
Qed.

Lemma Contains_rune_false c s :
  Forall (fun d => d ≠ c) s -> Contains s [c] = false.
Proof.
  induction 1 as [|a s Ha Hs IH]; [done|].
  cbn [Contains HasPrefix]. rewrite IH, HasPrefix_nil, andb_true_r, orb_false_r.
  apply N.eqb_neq. congruence.
Qed.

Lemma ToLower_fixed (lowerRune : rune -> rune) s :
  Forall (fun r => lowerRune r = r) s -> ToLower lowerRune s = s.
Proof.
  unfold ToLower. induction 1 as [|a s Ha Hs IH]; [done|].
  rewrite fmap_cons. by rewrite Ha, IH.
Qed.

End StringFacts.

(** ** The underscore loop and the two trims *)

Section Collapse.
Implicit Types (s t p : GoString).

Lemma HasSuffix_spec s p : HasSuffix s p = true <-> exists t, s = t ++ p.
Proof.
  unfold HasSuffix. rewrite HasPrefix_spec. split.
  - intros [t Ht]. exists (reverse t).
    apply (inj reverse). by rewrite reverse_app, reverse_involutive.
  - intros [t ->]. exists (reverse t). by rewrite reverse_app.
Qed.

Lemma TrimSuffix_app t p : TrimSuffix (t ++ p) p = t.
Proof.
  unfold TrimSuffix.
  replace (HasSuffix (t ++ p) p) with true
    by (symmetry; apply HasSuffix_spec; eauto).
  rewrite length_app, Nat.add_sub. by rewrite take_app_length.
Qed.

Lemma TrimPrefix_app p t : TrimPrefix (p ++ t) p = t.
Proof.
  unfold TrimPrefix.
  replace (HasPrefix (p ++ t) p) with true
    by (symmetry; apply HasPrefix_spec; eauto).
  by rewrite drop_app_length.
Qed.

Lemma TrimSuffix_cases s p :
  (HasSuffix s p = false /\ TrimSuffix s p = s)
  \/ (exists t, s = t ++ p /\ TrimSuffix s p = t).
Proof.
  destruct (HasSuffix s p) eqn:E.
  - right. apply HasSuffix_spec in E as [t ->]. exists t. by rewrite TrimSuffix_app.
  - left. unfold TrimSuffix. by rewrite E.
Qed.

Lemma TrimPrefix_cases s p :
  (HasPrefix s p = false /\ TrimPrefix s p = s)
  \/ (exists t, s = p ++ t /\ TrimPrefix s p = t).
Proof.
  destruct (HasPrefix s p) eqn:E.
  - right. apply HasPrefix_spec in E as [t ->]. exists t. by rewrite TrimPrefix_app.
  - left. unfold TrimPrefix. by rewrite E.
Qed.

Lemma TrimSuffix_Forall (P : rune -> Prop) s p :
  Forall P s -> Forall P (TrimSuffix s p).
Proof. unfold TrimSuffix. destruct (HasSuffix s p); [apply Forall_take|done]. Qed.

Lemma TrimPrefix_Forall (P : rune -> Prop) s p :
  Forall P s -> Forall P (TrimPrefix s p).
Proof. unfold TrimPrefix. destruct (HasPrefix s p); [apply Forall_drop|done]. Qed.

Lemma TrimSuffix_Contains s p q :
  Contains s q = false -> Contains (TrimSuffix s p) q = false.
Proof.
  unfold TrimSuffix. destruct (HasSuffix s p); [|done].
  intros H. apply not_true_is_false. intros H'%Contains_take. congruence.
Qed.

Lemma TrimPrefix_Contains s p q :
  Contains s q = false -> Contains (TrimPrefix s p) q = false.
Proof.
  unfold TrimPrefix. destruct (HasPrefix s p); [|done].
  intros H. apply not_true_is_false. intros H'%Contains_drop. congruence.
Qed.

(** One pass of [ReplaceAll(s, "__", "_")] never lengthens [s] and
    shortens it as soon as it finds a match. *)
Lemma collapse_pass_length s k :
  (length (replaceFrom (str "__") (str "_") s k) <= length s)%nat
  /\ (Contains (drop k s) (str "__") = true ->
      (length (replaceFrom (str "__") (str "_") s k) < length s)%nat)
  /\ ((0 < k)%nat -> s <> [] ->
      (length (replaceFrom (str "__") (str "_") s k) < length s)%nat).
Proof.
  revert k. induction s as [|c t IH]; intros k.
  - cbn [replaceFrom length]. split; [lia|]. split; [|done].
    rewrite drop_nil. discriminate.
  - cbn [replaceFrom]. destruct k as [|k].
    + destruct (HasPrefix (c :: t) (str "__")) eqn:E.
      * assert (t <> []) as Ht.
        { apply HasPrefix_spec in E as [r Hr]. intros ->. discriminate. }
        destruct (IH 1%nat) as (_ & _ & Hlt). specialize (Hlt ltac:(lia) Ht).
        change (length (str "__") - 1)%nat with 1%nat.
        rewrite length_app. change (length (str "_")) with 1%nat.
        cbn [length]. repeat split; intros; lia.
      * destruct (IH 0%nat) as (Hle & Hlt & _). cbn [length].
        split; [lia|]. split; [|lia].
        rewrite drop_0. cbn [Contains]. rewrite E, orb_false_l.
        rewrite drop_0 in Hlt. intros H. specialize (Hlt H). lia.
    + destruct (IH k) as (Hle & Hlt & _). cbn [length drop].
      split; [lia|]. split; [|lia]. intros H. specialize (Hlt H). lia.
Qed.

Lemma collapse_pass_shorter s :
  Contains s (str "__") = true ->
  (length (ReplaceAll s (str "__") (str "_")) < length s)%nat.
Proof.
  intros H. destruct (collapse_pass_length s 0) as (_ & Hlt & _).
  rewrite drop_0 in Hlt. exact (Hlt H).
Qed.

(** The fuel given to the loop is enough: it stops because no ["__"] is
    left, and more fuel changes nothing. *)
Lemma collapseLoop_done fuel s :
  (length s <= fuel)%nat -> Contains (collapseLoop fuel s) (str "__") = false.
Proof.
  revert s. induction fuel as [|n IH]; intros s Hlen; cbn [collapseLoop].
  - destruct s; [done|]. cbn [length] in Hlen. lia.
  - destruct (Contains s (str "__")) eqn:E; [|done].
    apply IH. pose proof (collapse_pass_shorter s E). lia.
Qed.

Lemma collapseLoop_fuel n m s :
  (length s <= n)%nat -> (length s <= m)%nat -> collapseLoop n s = collapseLoop m s.
Proof.
  revert m s. induction n as [|n IH]; intros m s Hn Hm.
  - destruct s; [|cbn [length] in Hn; lia]. by destruct m.
  - destruct m as [|m].
    + destruct s; [done|]. cbn [length] in Hm. lia.
    + cbn [collapseLoop]. destruct (Contains s (str "__")) eqn:E; [|done].
      pose proof (collapse_pass_shorter s E). apply IH; lia.
Qed.

Lemma collapseUnderscores_done s :
  Contains (collapseUnderscores s) (str "__") = false.
Proof. by apply collapseLoop_done. Qed.

Lemma collapseUnderscores_fixed s :
  Contains s (str "__") = false -> collapseUnderscores s = s.
Proof.
  unfold collapseUnderscores. intros H.
  destruct (length s); cbn [collapseLoop]; [done|]. by rewrite H.
Qed.

Lemma collapseUnderscores_Forall (P : rune -> Prop) s :
  P 95 -> Forall P s -> Forall P (collapseUnderscores s).
Proof.
  intros H95. unfold collapseUnderscores. generalize (length s) as fuel.
  intros fuel. revert s. induction fuel as [|n IH]; intros s Hs; cbn [collapseLoop].
  - done.
  - destruct (Contains s (str "__")); [|done].
    apply IH, ReplaceAll_Forall; [done|]. by constructor.
Qed.

End Collapse.

(** ** [sanitizeToolName] *)

Section TrimEnds.
Implicit Types (s t : GoString).

Let us : GoString := str "_".

Lemma double_underscore_inside (a b s : GoString) :
  s = a ++ us ++ us ++ b -> Contains s (str "__") = true.
Proof. intros ->. apply Contains_spec. exists a, b. done. Qed.

(** Once no ["__"] is left, trimming one underscore at each end leaves
    none at either end. *)
Lemma trim_ends s :
  Contains s (str "__") = false ->
  HasPrefix (TrimPrefix (TrimSuffix s us) us) us = false
  /\ HasSuffix (TrimPrefix (TrimSuffix s us) us) us = false.
Proof.
  intros Hs.
  assert (forall a b, s <> a ++ us ++ us ++ b) as Hno.
  { intros a b E. apply double_underscore_inside in E. congruence. }
  destruct (TrimSuffix_cases s us) as [[E1 ->] | (t & -> & ->)];
    [destruct (TrimPrefix_cases s us) as [[E2 ->] | (t' & -> & ->)]
    |destruct (TrimPrefix_cases t us) as [[E2 ->] | (t' & -> & ->)]].
  - done.
  - split; apply not_true_is_false.
    + intros [r ->]%HasPrefix_spec. by apply (Hno [] r).
    + intros [r ->]%HasSuffix_spec.
      apply not_true_iff_false in E1. apply E1, HasSuffix_spec.
      exists (us ++ r). by rewrite <-app_assoc.
  - split; [done|]. apply not_true_is_false.
    intros [r ->]%HasSuffix_spec. apply (Hno r []).
    by rewrite <-!app_assoc, app_nil_r.
  - split; apply not_true_is_false.
    + intros [r ->]%HasPrefix_spec. apply (Hno [] (r ++ us)).
      by rewrite <-!app_assoc.
    + intros [r ->]%HasSuffix_spec. apply (Hno (us ++ r) []).
      by rewrite <-!app_assoc, app_nil_r.
Qed.

End TrimEnds.

Lemma ReplaceAll_gone_step (c : rune) (done_ : list rune) (s old new : GoString) :
  old = [c] ->
  Forall (fun d => d ∉ done_) s ->
  Forall (fun d => d ∉ c :: done_) new ->
  Forall (fun d => d ∉ c :: done_) (ReplaceAll s old new).
Proof.
  intros -> Hs Hnew.
  assert (Forall (fun d => d ≠ c) (ReplaceAll s [c] new)) as H1.
  { apply ReplaceAll_rune_gone. eapply Forall_impl; [exact Hnew|].
    intros d Hd ->. apply Hd. left. }
  assert (Forall (fun d => d ∉ done_) (ReplaceAll s [c] new)) as H2.
  { apply ReplaceAll_Forall; [done|]. eapply Forall_impl; [exact Hnew|].
    intros d Hd Hin. apply Hd. by right. }
  rewrite Forall_forall in H1, H2. apply Forall_forall. intros d Hd.
  rewrite elem_of_cons. intros [->|Hin]; [by apply (H1 c)|by apply (H2 d)].
Qed.

Lemma Contains_special_false (y old : GoString) (c : rune) :
  old = [c] -> c ∈ sanitizerSpecials ->
  Forall (fun d => d ∉ sanitizerSpecials) y -> Contains y old = false.
Proof.
  intros -> Hc Hy. apply Contains_rune_false.
  eapply Forall_impl; [exact Hy|]. intros d Hd ->. done.
Qed.

Ltac by_compute :=
  match goal with
  | |- ?P => refine (@bool_decide_unpack P _ _); vm_compute; exact I
  end.

Ltac gone_step :=
  eapply ReplaceAll_gone_step; [vm_compute; reflexivity | | by_compute].

Section SanitizerProps.
Variable lowerRune : rune -> rune.

Lemma sanitizeToolName_unfold name :
  sanitizeToolName lowerRune name =
  let s := TrimPrefix (TrimSuffix (collapseUnderscores (replaced lowerRune name)) (str "_")) (str "_") in
  if bool_decide (s = str "") then str "unnamed_tool" else s.
Proof. reflexivity. Qed.

Lemma literal_lower (lit : GoString) :
  lower_ascii lowerRune ->
  forallb (fun r => (r <? 128) && negb (isUpperASCII r)) lit = true ->
  Forall (fun r => lowerRune r = r) lit.
Proof.
  intros Hascii H. apply Forall_forall. intros r Hr.
  rewrite forallb_forall in H. specialize (H r).
  rewrite <-list_elem_of_In in H. specialize (H Hr).
  apply andb_true_iff in H as [Hlt Hup]. apply N.ltb_lt in Hlt.
  rewrite Hascii by done. unfold asciiLower.
  by destruct (isUpperASCII r).
Qed.

Lemma replaced_Forall (P : rune -> Prop) name :
  Forall P (ToLower lowerRune name) ->
  Forall P (str "_") -> Forall P (str "and") ->
  Forall P (str "_eq_") -> Forall P (str "_pct_") ->
  Forall P (replaced lowerRune name).
Proof.
  intros H0 H1 H2 H3 H4. unfold replaced. cbv zeta.
  repeat (apply ReplaceAll_Forall; [|first [done|constructor]]).
  done.
Qed.

Lemma replaced_special name :
  Forall (fun d => d ∉ sanitizerSpecials) (replaced lowerRune name).
Proof.
  assert (Forall (fun d => d ∉ reverse sanitizerSpecials) (replaced lowerRune name)) as H.
  { unfold replaced. cbv zeta. change (reverse sanitizerSpecials)
      with [37; 61; 38; 63; 58; 125; 123; 46; 47; 45; 32].
    do 11 gone_step.
    apply Forall_forall. intros d _. apply not_elem_of_nil. }
  eapply Forall_impl; [exact H|]. intros d Hd Hin. apply Hd.
  by apply elem_of_reverse.
Qed.

Lemma Forall_literal (P : rune -> Prop) (lit : GoString) :
  forallb (fun r => bool_decide (r ∈ insertedRunes)) lit = true ->
  Forall P insertedRunes -> Forall P lit.
Proof.
  intros Hsub Hbig. rewrite Forall_forall in Hbig. apply Forall_forall.
  intros r Hr. apply Hbig. rewrite forallb_forall in Hsub.
  specialize (Hsub r). rewrite bool_decide_eq_true in Hsub.
  apply Hsub. by apply list_elem_of_In.
Qed.

(** A property of runes that holds of every lowered rune and of the
    inserted letters holds of every rune of the result. *)
Lemma sanitizeToolName_Forall (P : rune -> Prop) name :
  (forall r, P (lowerRune r)) -> Forall P insertedRunes ->
  Forall P (sanitizeToolName lowerRune name).
Proof.
  intros Hlow Hins. rewrite sanitizeToolName_unfold. cbv zeta.
  case_bool_decide as Hempty; [by apply Forall_literal|].
  apply TrimPrefix_Forall, TrimSuffix_Forall, collapseUnderscores_Forall.
  { rewrite Forall_forall in Hins. apply Hins. by_compute. }
  apply replaced_Forall; try (by apply Forall_literal).
  unfold ToLower. apply Forall_fmap, Forall_forall. intros r _. apply Hlow.
Qed.

(** What holds of the result whatever the lower-case table is. *)
Lemma sanitizeToolName_core name :
  let y := sanitizeToolName lowerRune name in
  y <> str ""
  /\ Forall (fun d => d ∉ sanitizerSpecials) y
  /\ Contains y (str "__") = false
  /\ HasPrefix y (str "_") = false
  /\ HasSuffix y (str "_") = false.
Proof.
  cbv zeta. rewrite sanitizeToolName_unfold. cbv zeta.
  case_bool_decide as Hempty.
  { split; [done|]. split; [by_compute|]. by vm_compute. }
  pose proof (collapseUnderscores_done (replaced lowerRune name)) as Hdone.
  destruct (trim_ends _ Hdone) as [Hp Hs].
  split; [done|]. split; [|split; [|done]].
  - apply TrimPrefix_Forall, TrimSuffix_Forall, collapseUnderscores_Forall.
    { by_compute. }
    apply replaced_special.
  - by apply TrimPrefix_Contains, TrimSuffix_Contains.
Qed.

Lemma sanitizeToolName_Sanitized name :
  lower_ascii lowerRune -> lower_idempotent lowerRune -> Sanitized lowerRune (sanitizeToolName lowerRune name).
Proof.
  intros Hascii Hidem.
  destruct (sanitizeToolName_core name) as (H1 & H2 & H3 & H4 & H5).
  split; try done.
  apply sanitizeToolName_Forall; [done|]. by apply literal_lower.
Qed.

Lemma Sanitized_fixed y : Sanitized lowerRune y -> sanitizeToolName lowerRune y = y.
Proof.
  intros [Hne Hlow Hspec Hdbl Hpre Hsuf].
  assert (replaced lowerRune y = y) as Hrep.
  { unfold replaced. cbv zeta. rewrite (ToLower_fixed _ _ Hlow).
    repeat (rewrite (ReplaceAll_absent y);
            [|eapply Contains_special_false;
              [vm_compute; reflexivity | by_compute | exact Hspec]]).
    reflexivity. }
  rewrite sanitizeToolName_unfold, Hrep, (collapseUnderscores_fixed _ Hdbl).
  unfold TrimSuffix. rewrite Hsuf. unfold TrimPrefix. rewrite Hpre.
  cbv zeta. by rewrite bool_decide_false.
Qed.

End SanitizerProps.

Lemma asciiLower_ascii : lower_ascii asciiLower.
Proof. by intros r _. Qed.

Lemma isUpperASCII_spec (r : rune) : isUpperASCII r = true <-> 65 <= r <= 90.
Proof. unfold isUpperASCII. rewrite andb_true_iff, !N.leb_le. tauto. Qed.

Lemma asciiLower_cases (r : rune) :
  (65 <= r <= 90 /\ asciiLower r = r + 32)
  \/ (~ 65 <= r <= 90 /\ asciiLower r = r).
Proof.
  unfold asciiLower. destruct (isUpperASCII r) eqn:E.
  - left. by apply isUpperASCII_spec in E.
  - right. split; [|done]. rewrite <-isUpperASCII_spec. congruence.
Qed.

Lemma asciiLower_idempotent : lower_idempotent asciiLower.
Proof.
  intros r. destruct (asciiLower_cases r) as [[H ->]|[H ->]];
    [destruct (asciiLower_cases (r + 32)) as [[H' ->]|[H' ->]]
    |destruct (asciiLower_cases r) as [[H' ->]|[H' ->]]]; lia.
Qed.


Example sanitize_fixtures :
  sanitizeToolName asciiLower (str "Get User {id}") = str "get_user_id"
  /\ sanitizeToolName asciiLower (str "A & B") = str "a_and_b"
  /\ sanitizeToolName asciiLower (str "") = str "unnamed_tool"
  /\ sanitizeToolName asciiLower (str "___") = str "unnamed_tool".
Proof. by vm_compute. Qed.




(** C9: the sanitizer is idempotent, [sanitize (sanitize x) = sanitize x]
    for every input [x].  (The lower-case table of package [unicode] is
    required to agree with the ASCII one below 128 and to be idempotent on
    code points.) *)
Theorem sanitizeToolName_idempotent (lowerRune : rune -> rune) (x : GoString) :
  lower_ascii lowerRune -> lower_idempotent lowerRune ->
  sanitizeToolName lowerRune (sanitizeToolName lowerRune x)
  = sanitizeToolName lowerRune x.
Proof.
  intros Hascii Hidem. by apply Sanitized_fixed, sanitizeToolName_Sanitized.
Qed.

Lemma sanitizeToolName_idempotent_witness :
  lower_ascii asciiLower /\ lower_idempotent asciiLower
  /\ sanitizeToolName asciiLower (sanitizeToolName asciiLower (str "A & B=%"))
     = sanitizeToolName asciiLower (str "A & B=%").
Proof.
  split; [exact asciiLower_ascii|]. split; [exact asciiLower_idempotent|].
  exact (sanitizeToolName_idempotent asciiLower (str "A & B=%")
           asciiLower_ascii asciiLower_idempotent).
Defined.

(** ** The store *)

Section Store.
Import Dispatcher.
Implicit Types (h : Heap) (l : loc) (k : GoString) (v : Value).

Lemma deref_fresh h l : l ∉ dom h -> deref h l = ∅.
Proof. intros H%not_elem_of_dom. unfold deref. by rewrite H. Qed.

Lemma make_fresh h : (make h).1 ∉ dom h.
Proof. apply is_fresh. Qed.

Lemma deref_make h l : deref (make h).2 l = deref h l.
Proof.
  unfold make, deref. cbn [snd]. destruct (decide (l = fresh (dom h))) as [->|Hne].
  - rewrite lookup_insert_eq.
    pose proof (is_fresh (dom h)) as H%not_elem_of_dom. by rewrite H.
  - by rewrite lookup_insert_ne.
Qed.

Lemma dom_make h : dom (make h).2 = {[ (make h).1 ]} ∪ dom h.
Proof. unfold make. cbn [fst snd]. by rewrite dom_insert_L. Qed.

Lemma deref_assign h l k v l' :
  deref (assign h l k v) l'
  = if decide (l' = l) then <[k := v]> (deref h l) else deref h l'.
Proof.
  unfold assign. destruct (decide (l' = l)) as [->|Hne]; unfold deref at 1.
  - by rewrite lookup_insert_eq.
  - by rewrite lookup_insert_ne.
Qed.

End Store.

(** ** Classification of the arguments (lines 59-83) *)

Section Classify.
Import Dispatcher.
Variable L : Lib.
Variable url : GoString.
Implicit Types (h : Heap) (params : gmap GoString Value) (k : GoString) (v : Value).

(** The three calls of [make] change the contents of no map. *)
Lemma classify_makes h :
  let h3 := (make (make (make h).2).2).2 in
  let p0 := (make h).1 in
  let q0 := (make (make h).2).1 in
  let b0 := (make (make (make h).2).2).1 in
  (forall l, deref h3 l = deref h l)
  /\ deref h p0 = ∅ /\ deref h q0 = ∅ /\ deref h b0 = ∅
  /\ p0 ≠ q0 /\ p0 ≠ b0 /\ q0 ≠ b0.
Proof.
  intros h3 p0 q0 b0.
  pose proof (make_fresh h) as Hp.
  pose proof (make_fresh (make h).2) as Hq.
  pose proof (make_fresh (make (make h).2).2) as Hb.
  rewrite !dom_make in Hb. rewrite dom_make in Hq.
  fold p0 in Hp, Hq, Hb. fold q0 in Hq, Hb. fold b0 in Hb.
  split; [intros l; unfold h3; by rewrite !deref_make|].
  repeat split; try (apply deref_fresh); set_solver.
Qed.

(** The legacy loop, entry by entry: an entry of [p] or [b] survives
    unless the loop writes its key to the same map. *)
Lemma foldl_classifyLegacy (p b : loc) (l : list (GoString * Value)) h :
  p ≠ b -> NoDup l.*1 ->
  let h' := foldl (classifyLegacy url p b) h l in
  (forall k v, deref h' p !! k = Some v <->
     (deref h p !! k = Some v
      /\ (k ∉ l.*1 \/ Contains url (placeholder k) = false))
     \/ ((k, v) ∈ l /\ Contains url (placeholder k) = true))
  /\ (forall k v, deref h' b !! k = Some v <->
     (deref h b !! k = Some v
      /\ (k ∉ l.*1 \/ Contains url (placeholder k) = true))
     \/ ((k, v) ∈ l /\ Contains url (placeholder k) = false))
  /\ (forall l', l' ≠ p -> l' ≠ b -> deref h' l' = deref h l').
Proof.
  intros Hpb. revert h. induction l as [|[k0 v0] l IH]; intros h Hnd; cbn [foldl].
  - cbn zeta. repeat split; try done; set_solver.
  - apply NoDup_cons in Hnd as [Hk0 Hnd]. cbn [fmap list_fmap fst] in Hk0.
    specialize (IH (classifyLegacy url p b h (k0, v0)) Hnd).
    cbn zeta in IH. destruct IH as (IHp & IHb & IHo). cbn zeta.
    assert (forall v, (k0, v) ∉ l) as Hk0'.
    { intros v Hin. apply Hk0. apply list_elem_of_fmap. by exists (k0, v). }
    unfold classifyLegacy in IHp, IHb, IHo |- *.
    destruct (Contains url (placeholder k0)) eqn:E.
    + split; [|split].
      * intros k v. rewrite IHp, deref_assign, decide_True by done.
        rewrite fmap_cons, !elem_of_cons. cbn [fst].
        destruct (decide (k = k0)) as [->|Hne].
        -- rewrite lookup_insert_eq, E. specialize (Hk0' v). naive_solver.
        -- rewrite lookup_insert_ne by done. naive_solver.
      * intros k v. rewrite IHb, deref_assign, decide_False by done.
        rewrite fmap_cons, !elem_of_cons. cbn [fst].
        destruct (decide (k = k0)) as [->|Hne]; [|naive_solver].
        rewrite E. specialize (Hk0' v). naive_solver.
      * intros l' H1 H2. by rewrite IHo, deref_assign, decide_False.
    + split; [|split].
      * intros k v. rewrite IHp, deref_assign, decide_False by done.
        rewrite fmap_cons, !elem_of_cons. cbn [fst].
        destruct (decide (k = k0)) as [->|Hne]; [|naive_solver].
        rewrite E. specialize (Hk0' v). naive_solver.
      * intros k v. rewrite IHb, deref_assign, decide_True by done.
        rewrite fmap_cons, !elem_of_cons. cbn [fst].
        destruct (decide (k = k0)) as [->|Hne].
        -- rewrite lookup_insert_eq, E. specialize (Hk0' v). naive_solver.
        -- rewrite lookup_insert_ne by done. naive_solver.
      * intros l' H1 H2. by rewrite IHo, deref_assign, decide_False.
Qed.

Lemma classify_unfold h params :
  classify L url h params =
  let h3 := (make (make (make h).2).2).2 in
  let p := default (make h).1 (asMap (params !! str "pathNames")) in
  let q := default (make (make h).2).1 (asMap (params !! str "searchParams")) in
  let b := default (make (make (make h).2).2).1 (asMap (params !! str "requestBody")) in
  {| heap :=
       if (len (deref h3 p) =? 0)%nat && (len (deref h3 q) =? 0)%nat
          && (len (deref h3 b) =? 0)%nat
       then foldl (classifyLegacy url p b) h3 (range_ L Value params)
       else h3;
     pathParams := p; queryParams := q; bodyParams := b |}.
Proof. reflexivity. Qed.

Lemma deref_group h params (key : string) (h3 : Heap) (l0 : loc) :
  (forall l, deref h3 l = deref h l) -> deref h l0 = ∅ ->
  deref h3 (default l0 (asMap (params !! str key))) = groupOf h params key.
Proof.
  intros H3 H0. unfold groupOf. rewrite H3.
  by destruct (asMap (params !! str key)).
Qed.

(** Grouped mode: as soon as one group map is not empty, the three maps
    under the group keys are the three parameter sets, a missing group
    being empty, and nothing is written. *)
Lemma classify_grouped h params :
  allGroupsEmpty h params = false ->
  let g := classify L url h params in
  deref (heap g) (pathParams g) = groupOf h params "pathNames"
  /\ deref (heap g) (queryParams g) = groupOf h params "searchParams"
  /\ deref (heap g) (bodyParams g) = groupOf h params "requestBody"
  /\ forall l, deref (heap g) l = deref h l.
Proof.
  intros Hne. rewrite classify_unfold. cbv zeta. cbn [heap pathParams queryParams bodyParams].
  destruct (classify_makes h) as (H3 & Hp & Hq & Hb & _).
  cbv zeta in H3, Hp, Hq, Hb.
  rewrite !(deref_group h params _ _ _ H3) by done.
  unfold allGroupsEmpty in Hne. rewrite Hne.
  rewrite !(deref_group h params _ _ _ H3) by done. done.
Qed.

Lemma classify_flat h params :
  range_ok L -> flatArguments params ->
  let g := classify L url h params in
  (forall k v, deref (heap g) (pathParams g) !! k = Some v <->
     params !! k = Some v /\ Contains url (placeholder k) = true)
  /\ (forall k v, deref (heap g) (bodyParams g) !! k = Some v <->
     params !! k = Some v /\ Contains url (placeholder k) = false)
  /\ deref (heap g) (queryParams g) = ∅.
Proof.
  intros Hr (Fp & Fq & Fb). rewrite classify_unfold. cbv zeta.
  cbn [heap pathParams queryParams bodyParams]. rewrite Fp, Fq, Fb. cbn [default from_option id].
  destruct (classify_makes h) as (H3 & Hp & Hq & Hb & Hpq & Hpb & Hqb).
  cbv zeta in H3, Hp, Hq, Hb, Hpq, Hpb, Hqb.
  rewrite !H3, Hp, Hq, Hb. unfold len. rewrite map_size_empty. cbn [Nat.eqb andb].
  assert (NoDup (range_ L Value params).*1) as Hnd.
  { rewrite (Hr Value params). apply NoDup_fst_map_to_list. }
  destruct (foldl_classifyLegacy _ _ (range_ L Value params)
              (make (make (make h).2).2).2 Hpb Hnd) as (Fp' & Fb' & Fo').
  cbv zeta in Fp', Fb', Fo'.
  assert (forall k v, (k, v) ∈ range_ L Value params <-> params !! k = Some v) as Hin.
  { intros k v. rewrite (Hr Value params). apply elem_of_map_to_list. }
  split; [|split].
  - intros k v. rewrite Fp', H3, Hp, lookup_empty, Hin. naive_solver.
  - intros k v. rewrite Fb', H3, Hb, lookup_empty, Hin. naive_solver.
  - rewrite Fo' by done. by rewrite H3.
Qed.

End Classify.

Import Dispatcher.

(** C2 fails on the code when a group key holds an empty map and no group
    has an entry: the test of line 74 looks at the sizes of the maps, not
    at the presence of the keys, so the legacy loop runs and files the key
    [pathNames] itself as a body parameter, where the claim has three empty
    parameter sets. *)
Lemma classify_empty_group_is_legacy :
  let h : Heap := {[ 1%positive := ∅ ]} in
  let params : gmap GoString Value :=
    {[ str "pathNames" := VMap 1%positive ]} in
  let g := classify Demo.lib (str "http://api/users") h params in
  groupOf h params "pathNames" = ∅
  /\ groupOf h params "requestBody" = ∅
  /\ deref (heap g) (bodyParams g)
     = {[ str "pathNames" := VMap 1%positive ]}.
Proof. by vm_compute. Qed.

(** Under the same test an empty [requestBody] map is stored inside
    itself, which the JSON encoder then has to reject. *)
Lemma classify_empty_body_is_cyclic :
  let h : Heap := {[ 1%positive := ∅ ]} in
  let params : gmap GoString Value :=
    {[ str "requestBody" := VMap 1%positive ]} in
  let g := classify Demo.lib (str "http://api/users") h params in
  bodyParams g = 1%positive
  /\ deref (heap g) 1%positive
     = {[ str "requestBody" := VMap 1%positive ]}.
Proof. by vm_compute. Qed.

(** The fallback fixture of the design document: [id] is a path
    parameter, [name] a body parameter, and there is no query parameter. *)
Example classify_fixture :
  let params : gmap GoString Value :=
    {[ str "id" := VNumber 1; str "name" := VString (str "x") ]} in
  let g := classify Demo.lib (str "/users/{id}") ∅ params in
  deref (heap g) (pathParams g)
    = {[ str "id" := VNumber 1 ]}
  /\ deref (heap g) (bodyParams g)
    = {[ str "name" := VString (str "x") ]}
  /\ deref (heap g) (queryParams g) = ∅.
Proof. by vm_compute. Qed.

(** ** URL resolution (lines 85-100) *)

Section PathResolution.
Variable L : Lib.
Variables (url : GoString) (h : Heap).
Implicit Types (entries : list (GoString * Value)) (k : GoString) (v : Value).


Lemma resolvePath_app entries entries' :
  resolvePath L url h (entries ++ entries')
  = foldl (substitutePath L h) (resolvePath L url h entries) entries'.
Proof. unfold resolvePath. by rewrite foldl_app. Qed.

Lemma placeholder_cons k : exists c t, placeholder k = c :: t.
Proof. by exists 123, (k ++ str "}"). Qed.

Lemma ReplaceAll_placeholder s k new :
  ReplaceAll s (placeholder k) new = replaceFrom (placeholder k) new s 0.
Proof. by destruct (placeholder_cons k) as (c & t & ->). Qed.

(** With one path parameter the loop is the substitution of its
    placeholder in the template. *)
Lemma substituteTemplate_single (render : Value -> GoString) k v s n :
  substituteTemplate render [(k, v)] s n
  = replaceFrom (placeholder k) (render v) s n.
Proof.
  revert n. induction s as [|c t IH]; intros n; [done|].
  cbn [substituteTemplate replaceFrom find fst snd].
  destruct n as [|n]; [|apply IH].
  destruct (HasPrefix (c :: t) (placeholder k)); by rewrite IH.
Qed.

Lemma resolvePath_single k v :
  resolvePath L url h [(k, v)]
  = substituteTemplate (pathValue L h) [(k, v)] url 0.
Proof.
  rewrite substituteTemplate_single. unfold resolvePath.
  cbn [foldl substitutePath].
  destruct (Contains url (placeholder k)) eqn:E.
  - apply ReplaceAll_placeholder.
  - by rewrite replaceFrom_absent.
Qed.

(** A parameter whose placeholder is not in the URL when the loop
    reaches it leaves the URL as it is. *)
Lemma resolvePath_skip entries k v entries' :
  Contains (resolvePath L url h entries) (placeholder k) = false ->
  resolvePath L url h (entries ++ (k, v) :: entries')
  = resolvePath L url h (entries ++ entries').
Proof.
  intros E. rewrite !resolvePath_app. cbn [foldl].
  unfold substitutePath at 2. by rewrite E.
Qed.

End PathResolution.

(** ** URL resolution on well-formed templates *)

Section Templates.
Implicit Types (ts : list Token) (k n v old new a b rest : GoString).

Lemma placeholder_eq k : placeholder k = 123 :: k ++ [125].
Proof. reflexivity. Qed.

Lemma replaceFrom_skip old new a b :
  replaceFrom old new (a ++ b) (length a) = replaceFrom old new b 0.
Proof. induction a as [|c a IH]; [done|]. by cbn. Qed.

Lemma replaceFrom_copy o old new a b :
  Forall (fun c => c ≠ o) a ->
  replaceFrom (o :: old) new (a ++ b) 0 = a ++ replaceFrom (o :: old) new b 0.
Proof.
  induction 1 as [|c a Hc Ha IH]; [done|].
  cbn [app replaceFrom HasPrefix].
  replace (o =? c) with false by (symmetry; apply N.eqb_neq; congruence).
  cbn [andb]. by rewrite IH.
Qed.

Lemma HasPrefix_name n k rest :
  braceFree n -> braceFree k ->
  HasPrefix (n ++ 125 :: rest) (k ++ [125]) = bool_decide (n = k).
Proof.
  intros Hn. revert k. induction Hn as [|c n [_ Hc] Hn IH]; intros k Hk.
  - destruct Hk as [|d k [_ Hd] Hk]; cbn [app HasPrefix].
    + by rewrite N.eqb_refl, HasPrefix_nil.
    + replace (d =? 125) with false by (symmetry; apply N.eqb_neq; congruence).
      done.
  - destruct Hk as [|d k [_ Hd] Hk]; cbn [app HasPrefix].
    + replace (125 =? c) with false by (symmetry; apply N.eqb_neq; congruence).
      done.
    + rewrite IH by done. destruct (N.eqb_spec d c) as [->|Hne]; cbn [andb].
      * apply bool_decide_ext. split; [by intros ->|by intros [= ->]].
      * symmetry. apply bool_decide_eq_false. by intros [= -> ->].
Qed.

Lemma HasPrefix_placeholder n k rest :
  braceFree n -> braceFree k ->
  HasPrefix (placeholder n ++ rest) (placeholder k) = bool_decide (n = k).
Proof.
  intros Hn Hk. rewrite !placeholder_eq. cbn [app HasPrefix].
  rewrite N.eqb_refl. cbn [andb]. rewrite <-app_assoc. by apply HasPrefix_name.
Qed.

Lemma braceFree_no_open a : braceFree a -> Forall (fun c => c ≠ 123) a.
Proof. intros H. eapply Forall_impl; [exact H|]. by intros c [? ?]. Qed.

Lemma name_no_open n : braceFree n -> Forall (fun c => c ≠ 123) (n ++ [125]).
Proof.
  intros Hn. apply Forall_app. split; [by apply braceFree_no_open|].
  by constructor.
Qed.

Lemma ReplaceAll_flatten ts k v :
  Forall tokenOK ts -> braceFree k ->
  ReplaceAll (flatten ts) (placeholder k) v = flatten (substToken k v <$> ts).
Proof.
  intros Hts Hk. rewrite ReplaceAll_placeholder.
  induction Hts as [|t ts Ht Hts IH]; [done|].
  rewrite fmap_cons. unfold flatten in *. cbn [flat_map].
  destruct t as [text|n]; cbn [tokenText substToken tokenOK] in *.
  - rewrite placeholder_eq at 1. rewrite replaceFrom_copy by by apply braceFree_no_open.
    by rewrite <-placeholder_eq, IH.
  - set (R := flat_map tokenText ts) in *.
    change (placeholder n ++ R) with (123 :: (n ++ [125]) ++ R).
    cbn [replaceFrom].
    change (123 :: (n ++ [125]) ++ R) with (placeholder n ++ R).
    rewrite HasPrefix_placeholder by done.
    case_bool_decide as E.
    + subst n. cbn [tokenText].
      replace (length (placeholder k) - 1)%nat with (length (k ++ [125]))
        by (rewrite placeholder_eq; cbn [length]; lia).
      by rewrite replaceFrom_skip, IH.
    + cbn [tokenText]. rewrite (placeholder_eq k) at 1.
      rewrite replaceFrom_copy by by apply name_no_open.
      by rewrite <-placeholder_eq, IH.
Qed.

Lemma substToken_OK k v t : braceFree v -> tokenOK t -> tokenOK (substToken k v t).
Proof. intros Hv Ht. destruct t as [text|n]; [done|]. cbn. by case_bool_decide. Qed.

Lemma fill_substToken (render : Value -> GoString) (entries : list (GoString * Value))
    k (val : Value) t :
  fill render entries (substToken k (render val) t)
  = fill render ((k, val) :: entries) t.
Proof.
  destruct t as [text|n]; [done|]. cbn [substToken fill find fst snd].
  by case_bool_decide.
Qed.

Lemma substitutePath_ReplaceAll (L : Lib) (h : Heap) (u : GoString) k (val : Value) :
  substitutePath L h u (k, val) = ReplaceAll u (placeholder k) (pathValue L h val).
Proof.
  unfold substitutePath. destruct (Contains u (placeholder k)) eqn:E; [done|].
  by rewrite ReplaceAll_absent.
Qed.

(** On a well-formed template the loop fills the placeholders. *)
Lemma resolvePath_flatten (L : Lib) (h : Heap) ts (entries : list (GoString * Value)) :
  Forall tokenOK ts ->
  Forall (fun kv => braceFree kv.1 /\ braceFree (pathValue L h kv.2)) entries ->
  resolvePath L (flatten ts) h entries
  = flatten (fill (pathValue L h) entries <$> ts).
Proof.
  intros Hts Hes. revert ts Hts. unfold resolvePath.
  induction Hes as [|[k val] es [Hk Hv] Hes IH]; intros ts Hts; cbn [foldl].
  - f_equal. symmetry. rewrite <-(list_fmap_id ts) at 2.
    apply list_fmap_ext. intros i t _. by destruct t.
  - cbn [fst snd] in Hk, Hv.
    rewrite substitutePath_ReplaceAll, ReplaceAll_flatten by done.
    rewrite IH by (apply Forall_fmap; eapply Forall_impl; [exact Hts|];
                   intros t Ht; by apply substToken_OK).
    f_equal. rewrite <-list_fmap_compose. apply list_fmap_ext.
    intros i t _. apply fill_substToken.
Qed.






(** A parameter without a placeholder in the template fills nothing. *)
Lemma fill_without (render : Value -> GoString) (entries : list (GoString * Value))
    k t :
  t ≠ Hole k ->
  fill render (filter (fun kv => kv.1 ≠ k) entries) t = fill render entries t.
Proof.
  destruct t as [text|n]; [done|]. intros Hne. cbn [fill].
  assert (n ≠ k) as Hn by congruence.
  induction entries as [|[k0 v0] es IH]; [done|].
  rewrite filter_cons. cbn [fst]. case_decide as E.
  - cbn [find fst]. case_bool_decide; [done|]. apply IH.
  - subst k0. cbn [find fst].
    rewrite bool_decide_false by done. apply IH.
Qed.

End Templates.

Lemma Hole_Contains (ts : list Token) (k : GoString) :
  Hole k ∈ ts -> Contains (flatten ts) (placeholder k) = true.
Proof.
  intros (t1 & t2 & ->)%list_elem_of_split. apply Contains_spec.
  exists (flatten t1), (flatten t2). unfold flatten.
  by rewrite flat_map_app.
Qed.




(** The fixture of the design document: [/users/{id}] with [id = 42]. *)
Example resolvePath_fixture :
  resolvePath Demo.lib (str "http://api/users/{id}") ∅ [(str "id", VNumber 42)]
  = str "http://api/users/42".
Proof. by vm_compute. Qed.

(** C10, as stated, fails: [x] has no placeholder in the template [/a/{y}],
    but [y] holds the text [{x}], and when the loop visits [y] first the
    value of [x] ends up in the URL.  The two invocations differ in [x]
    only and resolve to different URLs. *)
Lemma unmatched_parameter_can_contribute :
  let url := str "/a/{y}" in
  let params : gmap GoString Value := {[ str "pathNames" := VMap 1%positive ]} in
  let h1 : Heap := {[ 1%positive :=
    {[ str "y" := VString (str "{x}"); str "x" := VString (str "1") ]} ]} in
  let h2 : Heap := {[ 1%positive := {[ str "y" := VString (str "{x}") ]} ]} in
  let resolved h :=
    match buildRequest Demo.lib (str "GET") url ∅ h params with
    | inl req => Some (req_URL req)
    | inr _ => None
    end in
  Contains url (placeholder (str "x")) = false
  /\ allGroupsEmpty h1 params = false
  /\ allGroupsEmpty h2 params = false
  /\ resolved h1 = Some (str "/a/1")
  /\ resolved h2 = Some (str "/a/{x}").
Proof. by vm_compute. Qed.

(** In grouped mode the request is assembled from the URL the path loop
    leaves and from the two other groups. *)
Lemma buildRequest_grouped (L : Lib) (method url : GoString)
    (extraHeaders : gmap GoString GoString) (h : Heap) (params : gmap GoString Value) :
  allGroupsEmpty h params = false ->
  let h' := heap (classify L url h params) in
  buildRequest L method url extraHeaders h params =
  assembleRequest L method extraHeaders h'
    (resolvePath L url h' (range_ L Value (groupOf h params "pathNames")))
    (groupOf h params "searchParams") (groupOf h params "requestBody").
Proof.
  intros Hg. destruct (classify_grouped L url h params Hg) as (Hp & Hq & Hb & _).
  cbv zeta in Hp, Hq, Hb |- *. unfold buildRequest. cbv zeta.
  by rewrite Hp, Hq, Hb.
Qed.

(** C10, amended: in grouped mode (some group has an entry) the query
    string and the body are built from [searchParams] and [requestBody]
    alone; and when the braces of the template delimit placeholders and
    neither the names nor the rendered values of the path parameters
    contain a brace, a path parameter whose placeholder does not occur in
    the template contributes nothing: the request is the one resolved
    without that parameter. *)
Theorem unmatched_path_parameter_ignored (L : Lib) (method url : GoString)
    (extraHeaders : gmap GoString GoString) (h : Heap) (params : gmap GoString Value)
    (ts : list Token) (k : GoString) :
  allGroupsEmpty h params = false ->
  url = flatten ts -> Forall tokenOK ts ->
  Contains url (placeholder k) = false ->
  let h' := heap (classify L url h params) in
  let entries := range_ L Value (groupOf h params "pathNames") in
  Forall (fun kv => braceFree kv.1 /\ braceFree (pathValue L h' kv.2)) entries ->
  buildRequest L method url extraHeaders h params =
  assembleRequest L method extraHeaders h'
    (resolvePath L url h' (filter (fun kv => kv.1 ≠ k) entries))
    (groupOf h params "searchParams") (groupOf h params "requestBody").
Proof.
  intros Hg -> Hts Hk h' entries Hes.
  rewrite buildRequest_grouped by done. cbv zeta. fold h' entries. f_equal.
  rewrite !resolvePath_flatten; try done.
  - f_equal. apply list_fmap_ext. intros i t Ht. symmetry. apply fill_without.
    intros ->. apply list_elem_of_lookup_2, Hole_Contains in Ht. congruence.
  - rewrite Forall_forall in Hes. apply Forall_forall.
    intros kv [_ Hin]%list_elem_of_filter. by apply Hes.
Qed.

Lemma unmatched_path_parameter_ignored_witness :
  let url := str "/users/{id}" in
  let params : gmap GoString Value := {[ str "pathNames" := VMap 1%positive ]} in
  let h : Heap := {[ 1%positive :=
    {[ str "id" := VNumber 7; str "page" := VNumber 2 ]} ]} in
  let h' := heap (classify Demo.lib url h params) in
  let entries := range_ Demo.lib Value (groupOf h params "pathNames") in
  Contains url (placeholder (str "page")) = false
  /\ buildRequest Demo.lib (str "GET") url ∅ h params =
     assembleRequest Demo.lib (str "GET") ∅ h'
       (resolvePath Demo.lib url h' (filter (fun kv => kv.1 ≠ str "page") entries))
       (groupOf h params "searchParams") (groupOf h params "requestBody").
Proof.
  intros url params h h' entries. split; [by vm_compute|].
  apply (unmatched_path_parameter_ignored Demo.lib (str "GET") url ∅ h params
           [Lit (str "/users/"); Hole (str "id")] (str "page")).
  - by vm_compute.
  - by vm_compute.
  - repeat (apply Forall_cons; split; [unfold tokenOK, braceFree; by_compute|]).
    constructor.
  - by vm_compute.
  - unfold braceFree. by_compute.
Defined.

(** ** The query string (lines 102-122) *)

Section Query.
Variable L : Lib.
Variable h : Heap.
Implicit Types (q old : Values) (query : gmap GoString Value).

Lemma addQuery_queryValue q k v :
  addQuery L h q (k, v) =
  match queryValue L h v with
  | Some text => Values_Add q k text
  | None => q
  end.
Proof. by destruct v. Qed.

Lemma foldl_addQuery (l : list (GoString * Value)) q k :
  NoDup l.*1 ->
  foldl (addQuery L h) q l !! k =
  match (list_to_map l : gmap GoString Value) !! k ≫= queryValue L h with
  | Some text => Some (default [] (q !! k) ++ [text])
  | None => q !! k
  end.
Proof.
  revert q. induction l as [|[k0 v0] l IH]; intros q Hnd; cbn [foldl].
  - by rewrite list_to_map_nil, lookup_empty.
  - apply NoDup_cons in Hnd as [Hk0 Hnd]. cbn [fmap list_fmap fst] in Hk0.
    rewrite IH by done. rewrite list_to_map_cons.
    destruct (decide (k = k0)) as [->|Hne].
    + rewrite lookup_insert_eq, (not_elem_of_list_to_map_1 _ _ Hk0).
      cbn [mbind option_bind]. rewrite addQuery_queryValue.
      destruct (queryValue L h v0); [|done].
      unfold Values_Add. by rewrite lookup_insert_eq.
    + rewrite lookup_insert_ne by done. rewrite addQuery_queryValue.
      destruct (queryValue L h v0); [|done].
      unfold Values_Add. by rewrite lookup_insert_ne.
Qed.

(** The loop appends in whatever order the map is visited. *)
Lemma foldl_addQuery_range old query :
  range_ok L ->
  foldl (addQuery L h) old (range_ L Value query) = appendQuery L h old query.
Proof.
  intros Hr. apply map_eq. intros k.
  assert (NoDup (range_ L Value query).*1) as Hnd.
  { rewrite (Hr Value query). apply NoDup_fst_map_to_list. }
  rewrite foldl_addQuery by done.
  assert ((list_to_map (range_ L Value query) : gmap GoString Value) = query) as ->.
  { rewrite <-(list_to_map_to_list query) at 2.
    apply list_to_map_proper; [done|]. apply Hr. }
  unfold appendQuery. rewrite lookup_merge.
  destruct (query !! k) as [v|], (old !! k); cbn; try done;
    by destruct (queryValue L h v).
Qed.

Lemma appendQuery_lookup old query k :
  appendQuery L h old query !! k =
  match query !! k with
  | None | Some VNil => old !! k
  | Some (VString s) => Some (default [] (old !! k) ++ [s])
  | Some v => Some (default [] (old !! k) ++ [Sprintf_v L h v])
  end.
Proof.
  unfold appendQuery. rewrite lookup_merge.
  destruct (query !! k) as [[]|], (old !! k); by cbn.
Qed.

End Query.

(** C7: when there are query parameters, the URL left by the path loop is
    parsed and every parameter with a non-nil value is appended to the
    values its query string already has, a nil value being skipped and
    never rendered as an empty value; the query string is then written by
    the encoding routine of the library, which is a function of the values
    only and so does not depend on the order the map was visited in.  With
    no query parameter the URL is left untouched. *)
Theorem resolveQuery_appends (L : Lib) (h : Heap) (finalURL : GoString)
    (query : gmap GoString Value) :
  range_ok L ->
  (size query = 0%nat -> resolveQuery L h finalURL query = inl finalURL)
  /\ (size query ≠ 0%nat ->
      resolveQuery L h finalURL query =
      match url_Parse L finalURL with
      | inr err => inr err
      | inl parsedURL =>
          inl (URL_String L (URL_withRawQuery L parsedURL
                 (Values_Encode L (appendQuery L h (URL_Query L parsedURL) query))))
      end)
  /\ (forall old k,
      appendQuery L h old query !! k =
      match query !! k with
      | None | Some VNil => old !! k
      | Some (VString s) => Some (default [] (old !! k) ++ [s])
      | Some v => Some (default [] (old !! k) ++ [Sprintf_v L h v])
      end).
Proof.
  intros Hr. unfold resolveQuery, len. split; [|split].
  - by intros ->.
  - intros Hne. destruct (size query) as [|n]; [done|]. cbn [Nat.ltb Nat.leb].
    destruct (url_Parse L finalURL) as [u|err]; [|done].
    by rewrite foldl_addQuery_range.
  - intros old k. apply appendQuery_lookup.
Qed.

Lemma Demo_range_ok : range_ok Demo.lib.
Proof. by intros V m. Qed.

Lemma resolveQuery_appends_witness :
  let query : gmap GoString Value :=
    {[ str "q" := VString (str "a b"); str "skip" := VNil ]} in
  range_ok Demo.lib
  /\ resolveQuery Demo.lib ∅ (str "http://api/search") query
     = inl (str "http://api/search?q=a+b")
  /\ appendQuery Demo.lib ∅ ∅ query !! str "skip" = None
  /\ appendQuery Demo.lib ∅ ∅ query !! str "q" = Some [str "a b"].
Proof.
  intros query. split; [exact Demo_range_ok|].
  destruct (resolveQuery_appends Demo.lib ∅ (str "http://api/search") query
              Demo_range_ok) as (_ & Hq & Hlookup).
  split; [|split].
  - rewrite Hq by (vm_compute; discriminate). vm_compute. reflexivity.
  - rewrite Hlookup. vm_compute. reflexivity.
  - rewrite Hlookup. vm_compute. reflexivity.
Defined.

(** ** Body and headers (lines 124-143) *)

Section Headers.
Variable L : Lib.
Implicit Types (hd : Header) (l : list (GoString * GoString)) (key : GoString).

Let canon := CanonicalMIMEHeaderKey L.
Let set := fun hd (kv : GoString * GoString) => Header_Set canon hd kv.1 kv.2.

Lemma foldl_Header_Set_other l hd key :
  (forall kv, kv ∈ l -> canon kv.1 ≠ key) ->
  foldl set hd l !! key = hd !! key.
Proof.
  revert hd. induction l as [|kv l IH]; intros hd Hl; cbn [foldl]; [done|].
  rewrite IH by (intros kv' Hin; apply Hl; by right).
  unfold set, Header_Set. rewrite lookup_insert_ne; [done|].
  apply Hl. by left.
Qed.

Lemma foldl_Header_Set_last l1 l2 hd k v :
  (forall kv, kv ∈ l2 -> canon kv.1 ≠ canon k) ->
  foldl set hd (l1 ++ (k, v) :: l2) !! canon k = Some [v].
Proof.
  intros Hl2. rewrite foldl_app. cbn [foldl].
  rewrite foldl_Header_Set_other by done.
  unfold set at 1, Header_Set. cbn [fst snd]. by rewrite lookup_insert_eq.
Qed.

Lemma setHeaders_fields (extraHeaders : gmap GoString GoString) (req : Request) :
  req_Header req = ∅ ->
  req_Method (setHeaders L extraHeaders req) = req_Method req
  /\ req_URL (setHeaders L extraHeaders req) = req_URL req
  /\ req_Body (setHeaders L extraHeaders req) = req_Body req
  /\ req_Header (setHeaders L extraHeaders req)
     = foldl set (contentTypeHeader L (req_Body req)) (range_ L GoString extraHeaders).
Proof.
  intros Hempty. unfold setHeaders.
  cbn [req_Method req_URL req_Body req_Header]. rewrite Hempty.
  split; [done|]. split; [done|]. split; [done|].
  unfold contentTypeHeader, Header_Set.
  destruct (req_Body req); [|done]. by rewrite insert_empty.
Qed.

(** The headers of the request once the extra headers are applied. *)
Lemma setHeaders_lookup (extraHeaders : gmap GoString GoString) (req : Request) :
  range_ok L -> req_Header req = ∅ ->
  let hd := req_Header (setHeaders L extraHeaders req) in
  (forall key,
     (forall k, k ∈ dom extraHeaders -> canon k ≠ key) ->
     hd !! key = contentTypeHeader L (req_Body req) !! key)
  /\ (forall k v,
     extraHeaders !! k = Some v ->
     (forall k', k' ∈ dom extraHeaders -> k' ≠ k -> canon k' ≠ canon k) ->
     hd !! canon k = Some [v]).
Proof.
  intros Hr Hempty hd. unfold hd.
  destruct (setHeaders_fields extraHeaders req Hempty) as (_ & _ & _ & ->).
  assert (forall k v, (k, v) ∈ range_ L GoString extraHeaders
                      <-> extraHeaders !! k = Some v) as Hin.
  { intros k v. rewrite (Hr GoString extraHeaders). apply elem_of_map_to_list. }
  split.
  - intros key Hkey. apply foldl_Header_Set_other.
    intros [k v] Hkv. apply Hkey. apply Hin in Hkv. by apply elem_of_dom_2 in Hkv.
  - intros k v Hkv Hcanon.
    assert (NoDup (range_ L GoString extraHeaders).*1) as Hnd.
    { rewrite (Hr GoString extraHeaders). apply NoDup_fst_map_to_list. }
    apply Hin in Hkv. apply list_elem_of_split in Hkv as (l1 & l2 & Hsplit).
    rewrite Hsplit in Hnd |- *. apply foldl_Header_Set_last.
    intros [k' v'] Hin'. cbn [fst]. apply Hcanon.
    + apply (elem_of_dom_2 _ _ v'), Hin. rewrite Hsplit.
      apply elem_of_app. right. by right.
    + intros ->. rewrite fmap_app, fmap_cons in Hnd.
      apply NoDup_app in Hnd as (_ & _ & Hnd). apply NoDup_cons in Hnd as [Hnd _].
      apply Hnd. apply list_elem_of_fmap. by exists (k, v').
Qed.

End Headers.

Lemma marshalBody_cases (L : Lib) (h : Heap) (body : gmap GoString Value)
    (reqBody : option GoString) :
  marshalBody L h body = inl reqBody ->
  (size body = 0%nat /\ reqBody = None)
  \/ (size body ≠ 0%nat /\ exists jsonParams,
        json_Marshal L h body = inl jsonParams /\ reqBody = Some jsonParams).
Proof.
  unfold marshalBody, len. destruct (size body) as [|n]; cbn [Nat.ltb Nat.leb].
  - intros [= <-]. by left.
  - destruct (json_Marshal L h body) as [j|err]; [|done].
    intros [= <-]. right. split; [done|]. by exists j.
Qed.

Lemma assembleRequest_inl (L : Lib) (method : GoString)
    (extraHeaders : gmap GoString GoString) (h : Heap) (finalURL : GoString)
    (query body : gmap GoString Value) (req : Request) :
  assembleRequest L method extraHeaders h finalURL query body = inl req ->
  exists finalURL' reqBody req0,
    resolveQuery L h finalURL query = inl finalURL'
    /\ marshalBody L h body = inl reqBody
    /\ NewRequest L method finalURL' reqBody = inl req0
    /\ req_Header req0 = ∅ /\ req_Body req0 = reqBody /\ req_URL req0 = finalURL'
    /\ req = setHeaders L extraHeaders req0.
Proof.
  unfold assembleRequest.
  destruct (resolveQuery L h finalURL query) as [u|err]; [|done].
  destruct (marshalBody L h body) as [rb|err]; [|done].
  destruct (NewRequest L method u rb) as [req0|err] eqn:E; [|done].
  intros [= <-]. exists u, rb, req0. repeat split; try done;
    unfold NewRequest in E; destruct (http_NewRequest_err L method u); by simplify_eq.
Qed.

(** C8: the request carries the JSON serialization of the body parameter
    map exactly when there is at least one body parameter, and only then
    does this path set [Content-Type: application/json]; every extra header
    is applied afterwards with [Header.Set], so it overwrites what was set
    before under the same name, [Content-Type] included.  (Names collide
    the way [Header.Set] stores them, in canonical form; the value of an
    extra header is the final one when no other extra header has the same
    canonical name.) *)
Theorem request_body_and_headers (L : Lib) (method : GoString)
    (extraHeaders : gmap GoString GoString) (h : Heap) (finalURL : GoString)
    (query body : gmap GoString Value) (req : Request) :
  range_ok L ->
  assembleRequest L method extraHeaders h finalURL query body = inl req ->
  ((size body = 0%nat /\ req_Body req = None)
   \/ (size body ≠ 0%nat /\ exists jsonParams,
         json_Marshal L h body = inl jsonParams /\ req_Body req = Some jsonParams))
  /\ req_Header req
     = foldl (fun hd kv => Header_Set (CanonicalMIMEHeaderKey L) hd kv.1 kv.2)
         (contentTypeHeader L (req_Body req)) (range_ L GoString extraHeaders)
  /\ (forall key,
        (forall k, k ∈ dom extraHeaders -> CanonicalMIMEHeaderKey L k ≠ key) ->
        req_Header req !! key =
        if (size body =? 0)%nat then None
        else if bool_decide (key = CanonicalMIMEHeaderKey L (str "Content-Type"))
             then Some [str "application/json"] else None)
  /\ (forall k v,
        extraHeaders !! k = Some v ->
        (forall k', k' ∈ dom extraHeaders -> k' ≠ k ->
           CanonicalMIMEHeaderKey L k' ≠ CanonicalMIMEHeaderKey L k) ->
        req_Header req !! CanonicalMIMEHeaderKey L k = Some [v]).
Proof.
  intros Hr Hreq.
  apply assembleRequest_inl in Hreq
    as (u & rb & req0 & _ & Hbody & _ & Hhd & Hrb & _ & ->).
  destruct (setHeaders_fields L extraHeaders req0 Hhd) as (_ & _ & Hb & Hfold).
  destruct (setHeaders_lookup L extraHeaders req0 Hr Hhd) as (Hother & Hextra).
  cbv zeta in Hother, Hextra. rewrite Hb, Hrb. rewrite Hrb in Hfold.
  apply marshalBody_cases in Hbody. split; [exact Hbody|]. split; [exact Hfold|].
  split; [|exact Hextra].
  intros key Hkey. rewrite (Hother key Hkey), Hrb. unfold contentTypeHeader.
  destruct Hbody as [[-> ->]|(Hne & j & _ & ->)].
  - done.
  - destruct (size body) as [|n]; [done|]. cbn [Nat.eqb].
    case_bool_decide as Hk.
    + subst key. by rewrite lookup_singleton_eq.
    + by rewrite lookup_singleton_ne.
Qed.

Lemma request_body_and_headers_witness :
  let extraHeaders : gmap GoString GoString := {[ str "X-Api-Key" := str "secret" ]} in
  let body : gmap GoString Value := {[ str "name" := VString (str "x") ]} in
  range_ok Demo.lib
  /\ match assembleRequest Demo.lib (str "POST") extraHeaders ∅
             (str "http://api/users") ∅ body with
     | inl req =>
         req_Body req = Some (str "{" ++ Demo.quote ++ str "name" ++ Demo.quote
                                ++ str ":" ++ Demo.quote ++ str "x" ++ Demo.quote
                                ++ str "}")
         /\ req_Header req !! str "Content-Type" = Some [str "application/json"]
         /\ req_Header req !! str "X-Api-Key" = Some [str "secret"]
     | inr _ => False
     end.
Proof.
  intros extraHeaders body. split; [exact Demo_range_ok|].
  destruct (assembleRequest Demo.lib (str "POST") extraHeaders ∅
              (str "http://api/users") ∅ body) as [req|res] eqn:E;
    [|by vm_compute in E].
  destruct (request_body_and_headers Demo.lib (str "POST") extraHeaders ∅
              (str "http://api/users") ∅ body req Demo_range_ok E)
    as (Hbody & _ & Hother & Hextra).
  split; [|split].
  - destruct Hbody as [[H0 _]|(_ & j & Hj & ->)]; [by vm_compute in H0|].
    vm_compute in Hj. by injection Hj as <-.
  - rewrite Hother; [by vm_compute|].
    intros k Hk. apply elem_of_dom in Hk as [v Hk].
    apply lookup_singleton_Some in Hk as [<- _]. by vm_compute.
  - apply (Hextra (str "X-Api-Key") (str "secret")); [by vm_compute|].
    intros k' Hk' Hne. apply elem_of_dom in Hk' as [v Hk'].
    apply lookup_singleton_Some in Hk' as [<- _]. done.
Defined.

(** ** The result of an invocation (lines 102-157) *)

Lemma assembleRequest_inr (L : Lib) (method : GoString)
    (extraHeaders : gmap GoString GoString) (h : Heap) (finalURL : GoString)
    (query body : gmap GoString Value) (early : CallToolResult) :
  assembleRequest L method extraHeaders h finalURL query body = inr early ->
  (exists err, url_Parse L finalURL = inr err
     /\ early = errorText L "Error parsing URL: " err)
  \/ (exists err, json_Marshal L h body = inr err
     /\ early = errorText L "Error marshaling body parameters: " err)
  \/ (exists u err, http_NewRequest_err L method u = Some err
     /\ early = errorText L "Error creating request: " err).
Proof.
  unfold assembleRequest.
  destruct (resolveQuery L h finalURL query) as [u|err] eqn:Eq.
  - destruct (marshalBody L h body) as [rb|err] eqn:Eb.
    + destruct (NewRequest L method u rb) as [req0|err] eqn:En; [done|].
      intros [= <-]. right. right. exists u, err. split; [|done].
      unfold NewRequest in En.
      destruct (http_NewRequest_err L method u); by simplify_eq.
    + intros [= <-]. right. left. exists err. split; [|done].
      unfold marshalBody in Eb. destruct (0 <? len body)%nat; [|done].
      destruct (json_Marshal L h body); by simplify_eq.
  - intros [= <-]. left. exists err. split; [|done].
    unfold resolveQuery in Eq. destruct (0 <? len query)%nat; [|done].
    destruct (url_Parse L finalURL); by simplify_eq.
Qed.







(** The end-to-end fixture: a 404 answer is returned as ordinary text. *)
Example NewToolHandler_fixture :
  let req := {| req_Method := str "GET"; req_URL := str "http://api/users/42";
                req_Body := None; req_Header := ∅ |} in
  match client_Do Demo.lib req with
  | inl resp => resp_StatusCode resp = 404%Z
  | inr _ => False
  end
  /\ NewToolHandler Demo.lib (str "GET") (str "http://api/users/{id}") ∅ ∅
       {[ str "id" := VNumber 42 ]}
     = ({| Content := str "not found: http://api/users/42"; IsError := false |}, None).
Proof. by vm_compute. Qed.

(** ** The schema translator *)

Import Translator.

Lemma foldl_invariant {A B : Type} (f : A -> B -> A) (P : list B -> A -> Prop)
    (a : A) (l : list B) :
  P [] a ->
  (forall l' x a', P l' a' -> P (l' ++ [x]) (f a' x)) ->
  P l (foldl f a l).
Proof.
  intros Hnil Hstep. induction l as [|x l IH] using rev_ind; [done|].
  rewrite foldl_app. cbn [foldl]. by apply Hstep.
Qed.

Section TranslatorProps.
Variable L : Lib.

(** Every property of the path and of the query group is the property
    object of a parameter of that location. *)
Lemma parameters_translated (ps : list APIParameter) :
  let g := foldl addParameter noParams ps in
  (forall name prop, pathProps g !! name = Some prop ->
     exists param, param ∈ ps /\ In param = str "path" /\ Name param = name
       /\ prop = makeProp (ParamRequired param) (ParamDescription param)
                   (ParamSchema param))
  /\ (forall name prop, queryProps g !! name = Some prop ->
     exists param, param ∈ ps /\ In param = str "query" /\ Name param = name
       /\ prop = makeProp (ParamRequired param) (ParamDescription param)
                   (ParamSchema param)).
Proof.
  cbv zeta. apply (foldl_invariant addParameter (fun l g =>
    (forall name prop, pathProps g !! name = Some prop ->
       exists param, param ∈ l /\ In param = str "path" /\ Name param = name
         /\ prop = makeProp (ParamRequired param) (ParamDescription param)
                     (ParamSchema param))
    /\ (forall name prop, queryProps g !! name = Some prop ->
       exists param, param ∈ l /\ In param = str "query" /\ Name param = name
         /\ prop = makeProp (ParamRequired param) (ParamDescription param)
                     (ParamSchema param)))).
  - split; intros name prop H; unfold noParams in H;
      cbn [pathProps queryProps] in H; by rewrite lookup_empty in H.
  - intros l x g [Hpath Hquery].
    assert (forall param, param ∈ l -> param ∈ l ++ [x]) as Hmono.
    { intros param Hin. apply elem_of_app. by left. }
    assert (x ∈ l ++ [x]) as Hx by (apply elem_of_app; right; by left).
    unfold addParameter. repeat case_bool_decide;
      cbn [pathProps queryProps]; (split; intros name prop Hlook);
      try (apply lookup_insert_Some in Hlook as [[<- <-]|[_ Hlook]];
           [by exists x|]);
      first [apply Hpath in Hlook|apply Hquery in Hlook];
      destruct Hlook as (param & Hin & Hrest); exists param; split; auto.
Qed.

(** Every property of the body group is the property object of a
    property of a declared media type, required per that media type. *)
Lemma body_translated (content : gmap GoString MediaType) :
  let acc := foldl (addMediaType L) (∅, []) (range_ L MediaType content) in
  forall name prop, acc.1 !! name = Some prop ->
    exists kv sch propSchema,
      kv ∈ range_ L MediaType content /\ MediaSchema kv.2 = Some sch
      /\ (name, propSchema) ∈ range_ L Schema (default ∅ (Properties sch))
      /\ prop = makeProp (isRequiredField name (Required sch))
                  (SchemaDescription propSchema) propSchema.
Proof.
  cbv zeta. apply (foldl_invariant (addMediaType L) (fun l acc =>
    forall name prop, acc.1 !! name = Some prop ->
      exists kv sch propSchema,
        kv ∈ l /\ MediaSchema kv.2 = Some sch
        /\ (name, propSchema) ∈ range_ L Schema (default ∅ (Properties sch))
        /\ prop = makeProp (isRequiredField name (Required sch))
                    (SchemaDescription propSchema) propSchema)).
  - intros name prop H. cbn [fst] in H. by rewrite lookup_empty in H.
  - intros l kv acc Hacc. unfold addMediaType.
    assert (forall P : GoString * MediaType -> Prop,
              (exists kv', kv' ∈ l /\ P kv') -> exists kv', kv' ∈ l ++ [kv] /\ P kv')
      as Hmono.
    { intros P (kv' & Hin & HP). exists kv'. split; [|done].
      apply elem_of_app. by left. }
    destruct (MediaSchema kv.2) as [sch|] eqn:Esch.
    + assert (forall name prop,
        (foldl (addBodyProperty (Required sch)) acc
           (range_ L Schema (default ∅ (Properties sch)))).1 !! name = Some prop ->
        acc.1 !! name = Some prop
        \/ exists propSchema,
             (name, propSchema) ∈ range_ L Schema (default ∅ (Properties sch))
             /\ prop = makeProp (isRequiredField name (Required sch))
                         (SchemaDescription propSchema) propSchema) as Hinner.
      { apply (foldl_invariant (addBodyProperty (Required sch)) (fun l' acc' =>
          forall name prop, acc'.1 !! name = Some prop ->
            acc.1 !! name = Some prop
            \/ exists propSchema, (name, propSchema) ∈ l'
                 /\ prop = makeProp (isRequiredField name (Required sch))
                             (SchemaDescription propSchema) propSchema)).
        - intros name prop H. by left.
        - intros l' [k psch] acc' Hacc' name prop Hlook.
          unfold addBodyProperty in Hlook. cbn [fst] in Hlook.
          apply lookup_insert_Some in Hlook as [[<- <-]|[_ Hlook]].
          + right. exists psch. split; [|done]. apply elem_of_app. right. by left.
          + apply Hacc' in Hlook as [?|(psch' & Hin & ->)]; [by left|].
            right. exists psch'. split; [|done]. apply elem_of_app. by left. }
      intros name prop [Hold|(psch & Hin & ->)]%Hinner.
      * apply Hacc in Hold as (kv' & sch' & psch' & Hin & Hrest).
        exists kv', sch', psch'. split; [|done]. apply elem_of_app. by left.
      * exists kv, sch, psch. split; [|done]. apply elem_of_app. right. by left.
    + intros name prop Hlook. apply Hacc in Hlook as (kv' & sch' & psch' & Hin & Hrest).
      exists kv', sch', psch'. split; [|done]. apply elem_of_app. by left.
Qed.

(** The loop over the properties of a schema never removes a property,
    and adds one for every entry it visits. *)
Lemma addBodyProperty_keeps (required : list GoString)
    (l : list (GoString * Schema))
    (acc : gmap GoString PropObject * list GoString) (name : GoString) :
  is_Some (acc.1 !! name) ->
  is_Some ((foldl (addBodyProperty required) acc l).1 !! name).
Proof.
  revert acc. induction l as [|[k psch] l IH]; intros acc H; [done|].
  cbn [foldl]. apply IH. unfold addBodyProperty. cbn [fst].
  apply lookup_insert_is_Some'. by right.
Qed.

Lemma addBodyProperty_adds (required : list GoString)
    (l : list (GoString * Schema))
    (acc : gmap GoString PropObject * list GoString)
    (name : GoString) (propSchema : Schema) :
  (name, propSchema) ∈ l ->
  is_Some ((foldl (addBodyProperty required) acc l).1 !! name).
Proof.
  revert acc. induction l as [|[k psch] l IH]; intros acc H.
  - by apply elem_of_nil in H.
  - cbn [foldl]. apply elem_of_cons in H as [H|H].
    + injection H as <- <-. apply addBodyProperty_keeps.
      unfold addBodyProperty. cbn [fst]. apply lookup_insert_is_Some'. by left.
    + by apply IH.
Qed.

(** Every property that a visited media type declares has a property in
    the body group. *)
Lemma body_complete (content : gmap GoString MediaType) :
  let acc := foldl (addMediaType L) (∅, []) (range_ L MediaType content) in
  forall kv sch name propSchema,
    kv ∈ range_ L MediaType content -> MediaSchema kv.2 = Some sch ->
    (name, propSchema) ∈ range_ L Schema (default ∅ (Properties sch)) ->
    is_Some (acc.1 !! name).
Proof.
  cbv zeta. apply (foldl_invariant (addMediaType L) (fun l acc =>
    forall kv sch name propSchema,
      kv ∈ l -> MediaSchema kv.2 = Some sch ->
      (name, propSchema) ∈ range_ L Schema (default ∅ (Properties sch)) ->
      is_Some (acc.1 !! name))).
  - intros kv sch name psch H. by apply elem_of_nil in H.
  - intros l kv acc Hacc kv' sch name psch Hin Hsch Hprop.
    apply elem_of_app in Hin as [Hin|Hin%list_elem_of_singleton].
    + specialize (Hacc kv' sch name psch Hin Hsch Hprop). unfold addMediaType.
      destruct (MediaSchema kv.2); [by apply addBodyProperty_keeps|done].
    + subst kv'. unfold addMediaType. rewrite Hsch.
      by apply (addBodyProperty_adds _ _ _ name psch).
Qed.

(** The query and the path group are emitted only when they have a
    property. *)
Lemma paramOptions_nonempty (g : ParamGroups) (o : ObjectOption) :
  o ∈ paramOptions g -> obj_properties o ≠ ∅.
Proof.
  unfold paramOptions. intros [Ho|Ho]%elem_of_app.
  - destruct (size (queryProps g)) eqn:E; cbn in Ho; [by apply elem_of_nil in Ho|].
    apply list_elem_of_singleton in Ho as ->. cbn. intros H. by rewrite H in E.
  - destruct (size (pathProps g)) eqn:E; cbn in Ho; [by apply elem_of_nil in Ho|].
    apply list_elem_of_singleton in Ho as ->. cbn. intros H. by rewrite H in E.
Qed.

End TranslatorProps.

Section ParameterGroups.
Implicit Types (ps : list APIParameter) (g : ParamGroups) (param : APIParameter).

Lemma addParameter_cases g param :
  (In param = str "query"
   /\ addParameter g param =
      {| queryProps := <[Name param := paramProp param]> (queryProps g);
         requiredQueryParams :=
           if ParamRequired param then requiredQueryParams g ++ [Name param]
           else requiredQueryParams g;
         pathProps := pathProps g;
         requiredPathParams := requiredPathParams g |})
  \/ (In param = str "path"
   /\ addParameter g param =
      {| queryProps := queryProps g;
         requiredQueryParams := requiredQueryParams g;
         pathProps := <[Name param := paramProp param]> (pathProps g);
         requiredPathParams :=
           if ParamRequired param then requiredPathParams g ++ [Name param]
           else requiredPathParams g |})
  \/ (In param ≠ str "query" /\ In param ≠ str "path" /\ addParameter g param = g).
Proof.
  unfold addParameter, paramProp. repeat case_bool_decide; auto.
Qed.

Lemma query_is_not_path : str "query" ≠ str "path".
Proof. by vm_compute. Qed.

Lemma pathProps_lookup ps name :
  pathProps (foldl addParameter noParams ps) !! name
  = paramProp <$> last (filter (fun p => In p = str "path" /\ Name p = name) ps).
Proof.
  induction ps as [|x ps IH] using rev_ind; [done|].
  rewrite foldl_app, filter_app, filter_cons, filter_nil. cbn [foldl].
  destruct (addParameter_cases (foldl addParameter noParams ps) x)
    as [[Hin ->]|[[Hin ->]|(Hq & Hp & ->)]]; cbn [pathProps].
  - rewrite decide_False, app_nil_r; [done|].
    intros [Hp _]. rewrite Hin in Hp. by apply query_is_not_path.
  - destruct (decide (Name x = name)) as [<-|Hne].
    + rewrite lookup_insert_eq, decide_True by done. by rewrite last_snoc.
    + rewrite lookup_insert_ne by done. rewrite decide_False, app_nil_r; [done|].
      by intros [_ ?].
  - rewrite decide_False, app_nil_r; [done|]. by intros [? _].
Qed.

Lemma queryProps_lookup ps name :
  queryProps (foldl addParameter noParams ps) !! name
  = paramProp <$> last (filter (fun p => In p = str "query" /\ Name p = name) ps).
Proof.
  induction ps as [|x ps IH] using rev_ind; [done|].
  rewrite foldl_app, filter_app, filter_cons, filter_nil. cbn [foldl].
  destruct (addParameter_cases (foldl addParameter noParams ps) x)
    as [[Hin ->]|[[Hin ->]|(Hq & Hp & ->)]]; cbn [queryProps].
  - destruct (decide (Name x = name)) as [<-|Hne].
    + rewrite lookup_insert_eq, decide_True by done. by rewrite last_snoc.
    + rewrite lookup_insert_ne by done. rewrite decide_False, app_nil_r; [done|].
      by intros [_ ?].
  - rewrite decide_False, app_nil_r; [done|].
    intros [Hq _]. rewrite Hin in Hq. by apply query_is_not_path.
  - rewrite decide_False, app_nil_r; [done|]. by intros [? _].
Qed.

End ParameterGroups.

Lemma required_marker_grows (desc : GoString) : str "[required] " ++ desc ≠ desc.
Proof. intros H%(f_equal length). rewrite length_app in H. cbn in H. lia. Qed.

Lemma prefixRequired_idempotent (isRequired : bool) (desc : GoString) :
  prefixRequired isRequired (prefixRequired isRequired desc)
  = prefixRequired isRequired desc.
Proof.
  unfold prefixRequired at 2.
  destruct (isRequired && negb (HasPrefix desc (str "[required]"))) eqn:E.
  - apply andb_true_iff in E as [-> E]. apply negb_true_iff in E.
    unfold prefixRequired. rewrite E.
    assert (HasPrefix (str "[required] " ++ desc) (str "[required]") = true) as ->.
    { apply HasPrefix_spec. by exists (str " " ++ desc). }
    done.
  - unfold prefixRequired. by rewrite E.
Qed.

Lemma prefixRequired_marked (desc : GoString) :
  HasPrefix (prefixRequired true desc) (str "[required]") = true.
Proof.
  unfold prefixRequired. cbn [andb].
  destruct (HasPrefix desc (str "[required]")) eqn:E; cbn [negb]; [exact E|].
  apply HasPrefix_spec. by exists (str " " ++ desc).
Qed.

(** C4 as worded fails on a required description that begins with
    [[required]] without the space of the marker: the test of line 18 is on
    the ten characters [[required]], the text prepended on line 19 has
    eleven.  The description [[required]x] of a required parameter is not
    prefixed with the marker [[required] ], yet it is returned unchanged,
    and this is the description the tool gets. *)
Lemma required_marker_without_space :
  let desc := str "[required]x" in
  let sch :=
    {| Type_ := str "integer"; SchemaDescription := str ""; Enum := None;
       Format := str ""; Default := None; Items := None; Properties := None;
       Required := [] |} in
  let api :=
    {| OperationID := str "getUser"; Summary := str ""; Description := str "";
       Method := str "GET"; Path := str "/users/{id}";
       APIParameters :=
         [ {| Name := str "id"; In := str "path"; ParamRequired := true;
              ParamDescription := desc; ParamSchema := sch |} ];
       RequestBody_ := None |} in
  let t := buildTool Demo.lib asciiLower (str "http://api") (str "api") api in
  HasPrefix desc (str "[required] ") = false
  /\ prefixRequired true desc = desc
  /\ prefixRequired true desc ≠ str "[required] " ++ desc
  /\ HasPrefix (prefixRequired true desc) (str "[required] ") = false
  /\ (group t "pathNames" ≫= fun o => prop_description <$> obj_properties o !! str "id")
     = Some (str "[required]x").
Proof. by vm_compute. Qed.

(** C4: the marker [[required] ] is prepended to a description exactly
    when the source is marked required and the description does not
    already begin with [[required]] (ten characters, the space of the
    marker is not tested); otherwise the description is left as it is;
    applying the rule again changes nothing, and the result for a required
    source always begins with [[required]].  This is the description of
    the translated properties: every name of a path or query parameter has
    a property in its group, whose description is the rule applied to the
    last parameter of that name and location, required as the parameter
    says; every property in the body group has the rule applied to a
    property of a visited media type, required as the required-list of
    that media type says, and every property of a visited media type has
    one in the body group. *)
Theorem required_prefix_once (L : Lib) :
  (forall isRequired desc,
     (prefixRequired isRequired desc = str "[required] " ++ desc
      <-> isRequired = true /\ HasPrefix desc (str "[required]") = false)
     /\ (prefixRequired isRequired desc = desc
      <-> ~ (isRequired = true /\ HasPrefix desc (str "[required]") = false))
     /\ prefixRequired isRequired (prefixRequired isRequired desc)
        = prefixRequired isRequired desc
     /\ HasPrefix (prefixRequired true desc) (str "[required]") = true)
  /\ (forall ps name,
        prop_description <$> pathProps (foldl addParameter noParams ps) !! name
        = (fun p => prefixRequired (ParamRequired p) (ParamDescription p))
            <$> last (filter (fun p => In p = str "path" /\ Name p = name) ps)
        /\ prop_description <$> queryProps (foldl addParameter noParams ps) !! name
          = (fun p => prefixRequired (ParamRequired p) (ParamDescription p))
              <$> last (filter (fun p => In p = str "query" /\ Name p = name) ps))
  /\ (forall content name,
        let acc := foldl (addMediaType L) (∅, []) (range_ L MediaType content) in
        (forall prop,
           acc.1 !! name = Some prop ->
           exists kv sch propSchema,
             kv ∈ range_ L MediaType content /\ MediaSchema kv.2 = Some sch
             /\ (name, propSchema) ∈ range_ L Schema (default ∅ (Properties sch))
             /\ prop_description prop
                = prefixRequired (isRequiredField name (Required sch))
                    (SchemaDescription propSchema))
        /\ (forall kv sch propSchema,
             kv ∈ range_ L MediaType content -> MediaSchema kv.2 = Some sch ->
             (name, propSchema) ∈ range_ L Schema (default ∅ (Properties sch)) ->
             is_Some (acc.1 !! name))).
Proof.
  split; [|split].
  - intros isRequired desc. split; [|split; [|split]].
    + unfold prefixRequired.
      destruct isRequired, (HasPrefix desc (str "[required]")); cbn [andb negb];
        split; try done; try (by intros [? ?]);
        intros H; symmetry in H; by apply required_marker_grows in H.
    + unfold prefixRequired.
      destruct isRequired, (HasPrefix desc (str "[required]")); cbn [andb negb];
        split; try done; try (by intros ? [? ?]).
      * intros H. by apply required_marker_grows in H.
      * intros H. destruct H. done.
    + apply prefixRequired_idempotent.
    + apply prefixRequired_marked.
  - intros ps name. rewrite pathProps_lookup, queryProps_lookup.
    split; by destruct (last _).
  - intros content name acc. split.
    + intros prop Hlook.
      apply (body_translated L content) in Hlook
        as (kv & sch & psch & Hin & Hsch & Hprop & ->).
      by exists kv, sch, psch.
    + intros kv sch psch. apply (body_complete L content).
Qed.

Lemma required_prefix_once_witness :
  let idSchema :=
    {| Type_ := str "integer"; SchemaDescription := str "[required]: the id";
       Enum := None; Format := str ""; Default := None; Items := None;
       Properties := None; Required := [] |} in
  let sch :=
    {| Type_ := str "object"; SchemaDescription := str ""; Enum := None;
       Format := str ""; Default := None; Items := None;
       Properties := Some {[ str "id" := idSchema ]};
       Required := [str "id"] |} in
  let content : gmap GoString MediaType :=
    {[ str "application/json" := {| MediaSchema := Some sch |} ]} in
  let ps :=
    [ {| Name := str "id"; In := str "path"; ParamRequired := false;
         ParamDescription := str "old text"; ParamSchema := idSchema |};
      {| Name := str "id"; In := str "path"; ParamRequired := true;
         ParamDescription := str "user id"; ParamSchema := idSchema |} ] in
  prop_description <$> pathProps (foldl addParameter noParams ps) !! str "id"
  = Some (str "[required] user id")
  /\ prop_description
       <$> (foldl (addMediaType Demo.lib) (∅, [])
              (range_ Demo.lib MediaType content)).1 !! str "id"
     = Some (str "[required]: the id").
Proof.
  intros idSchema sch content ps.
  destruct (required_prefix_once Demo.lib) as (_ & Hparams & Hbody).
  split.
  - destruct (Hparams ps (str "id")) as [-> _]. by vm_compute.
  - destruct (Hbody content (str "id")) as [Hsound Hcomplete]. cbv zeta in *.
    change (range_ Demo.lib MediaType content) with (map_to_list content) in *.
    destruct (Hcomplete (str "application/json", {| MediaSchema := Some sch |})
                sch idSchema) as [prop Hprop].
    + apply elem_of_map_to_list. apply lookup_singleton_eq.
    + reflexivity.
    + apply elem_of_map_to_list. apply lookup_singleton_eq.
    + rewrite Hprop. cbn [fmap option_fmap option_map]. f_equal.
      destruct (Hsound prop Hprop) as ([k m] & sch' & psch & Hkv & Hsch & Hp & ->).
      apply elem_of_map_to_list, lookup_singleton_Some in Hkv as [<- <-].
      cbn [snd MediaSchema] in Hsch. injection Hsch as <-.
      apply elem_of_map_to_list in Hp.
      change (default ∅ (Properties sch))
        with ({[ str "id" := idSchema ]} : gmap GoString Schema) in Hp.
      apply lookup_singleton_Some in Hp as [_ <-].
      by vm_compute.
Defined.

Example required_prefix_fixture :
  prefixRequired true (str "user id") = str "[required] user id"
  /\ prefixRequired true (str "[required] user id") = str "[required] user id"
  /\ prefixRequired false (str "user id") = str "user id".
Proof. by vm_compute. Qed.

(** C1 fails on the code for the body group: the query and the path group
    are guarded by [len(...) > 0], the body group only by the presence of a
    content entry.  An operation whose only content entry has a schema
    without properties gets a [requestBody] group with an empty property
    map, where the claim has no such group. *)
Lemma empty_requestBody_group_is_emitted :
  let textSchema :=
    {| Type_ := str "string"; SchemaDescription := str ""; Enum := None;
       Format := str ""; Default := None; Items := None; Properties := None;
       Required := [] |} in
  let api :=
    {| OperationID := str "upload"; Summary := str ""; Description := str "";
       Method := str "POST"; Path := str "/upload"; APIParameters := [];
       RequestBody_ := Some {| BodyContent :=
         {[ str "text/plain" := {| MediaSchema := Some textSchema |} ]} |} |} in
  tool_objects (buildTool Demo.lib asciiLower (str "http://api") (str "api") api)
  = [ {| obj_name := str "requestBody";
         obj_description := str "request body for the tool";
         obj_properties := ∅;
         obj_required := [] |} ].
Proof. by vm_compute. Qed.

(** The translator fixture of the design document: a required path
    parameter [id] and an optional query parameter [verbose]. *)
Example buildTool_fixture :
  let sch ty :=
    {| Type_ := str ty; SchemaDescription := str ""; Enum := None;
       Format := str ""; Default := None; Items := None; Properties := None;
       Required := [] |} in
  let api :=
    {| OperationID := str "getUser"; Summary := str ""; Description := str "";
       Method := str "GET"; Path := str "/users/{id}";
       APIParameters :=
         [ {| Name := str "id"; In := str "path"; ParamRequired := true;
              ParamDescription := str "user id"; ParamSchema := sch "integer" |};
           {| Name := str "verbose"; In := str "query"; ParamRequired := false;
              ParamDescription := str "more output"; ParamSchema := sch "boolean" |} ];
       RequestBody_ := None |} in
  let t := buildTool Demo.lib asciiLower (str "http://api") (str "api") api in
  tool_name t = str "api_getuser"
  /\ (obj_required <$> group t "pathNames") = Some [str "id"]
  /\ (obj_required <$> group t "searchParams") = Some []
  /\ group t "requestBody" = None.
Proof. by vm_compute. Qed.

(** * Further properties of the adapter *)

(** ** [isRequiredField] and [sanitizeToolName] *)

(** X1: [isRequiredField] answers whether the field is in the list. *)
Theorem isRequiredField_elem_of (field : GoString) (requiredList : list GoString) :
  isRequiredField field requiredList = true <-> field ∈ requiredList.
Proof.
  induction requiredList as [|name rest IH]; cbn [isRequiredField].
  - split; [done|]. by intros ?%elem_of_nil.
  - rewrite elem_of_cons. case_bool_decide as E.
    + subst. split; [by left|done].
    + rewrite IH. split; [by right|]. intros [->|?]; [done|done].
Qed.

Section SanitizerMore.
Variable lowerRune : rune -> rune.
Hypothesis Hascii : lower_ascii lowerRune.
Implicit Types (s p b y : GoString).

Lemma allowedRune_lower r : allowedRune r = true -> lowerRune r = r.
Proof.
  intros H. unfold allowedRune in H.
  assert (r < 128 /\ isUpperASCII r = false) as [Hlt Hup].
  { unfold isUpperASCII.
    repeat (apply orb_true_iff in H as [H|H]);
      rewrite ?andb_true_iff, ?N.leb_le, ?N.eqb_eq in H;
      (split; [lia|]); apply andb_false_iff;
      rewrite !N.leb_gt; lia. }
  rewrite Hascii by done. unfold asciiLower. by rewrite Hup.
Qed.

Lemma allowedRune_not_special r : allowedRune r = true -> r ∉ sanitizerSpecials.
Proof.
  intros H Hin.
  change sanitizerSpecials with [32; 45; 47; 46; 123; 125; 58; 63; 38; 61; 37] in Hin.
  repeat (apply elem_of_cons in Hin as [->|Hin]; [by vm_compute in H|]).
  by apply elem_of_nil in Hin.
Qed.

Lemma identifier_Sanitized y :
  y <> str "" -> forallb allowedRune y = true ->
  Contains y (str "__") = false ->
  HasPrefix y (str "_") = false -> HasSuffix y (str "_") = false ->
  Sanitized lowerRune y.
Proof.
  intros Hne Hall Hdbl Hpre Hsuf.
  assert (Forall (fun r => allowedRune r = true) y) as Hall'.
  { apply Forall_forall. intros r Hr. rewrite forallb_forall in Hall.
    apply Hall. by apply list_elem_of_In. }
  split; try done.
  - eapply Forall_impl; [exact Hall'|]. apply allowedRune_lower.
  - eapply Forall_impl; [exact Hall'|]. apply allowedRune_not_special.
Qed.

End SanitizerMore.

(** X2: a name that already is an identifier (lower-case ASCII letters,
    digits and single underscores, none at either end) is returned
    unchanged. *)
Theorem sanitizeToolName_keeps_identifiers (lowerRune : rune -> rune) (y : GoString) :
  lower_ascii lowerRune ->
  y <> str "" -> forallb allowedRune y = true ->
  Contains y (str "__") = false ->
  HasPrefix y (str "_") = false -> HasSuffix y (str "_") = false ->
  sanitizeToolName lowerRune y = y.
Proof. intros. by apply Sanitized_fixed, identifier_Sanitized. Qed.

Lemma sanitizeToolName_keeps_identifiers_witness :
  sanitizeToolName asciiLower (str "get_user_2") = str "get_user_2".
Proof.
  apply (sanitizeToolName_keeps_identifiers asciiLower (str "get_user_2")
           asciiLower_ascii); by vm_compute.
Defined.

(** ** Names made of separators *)

Section Fallback.
Variable lowerRune : rune -> rune.
Hypothesis Hascii : lower_ascii lowerRune.
Implicit Types (s y name : GoString).

(** The characters that end up as an underscore or disappear. *)
Let separator (r : rune) : Prop := r ∈ separatorRunes.

Lemma separator_lower r : separator r -> lowerRune r = r.
Proof.
  intros Hin. unfold separator in Hin.
  change separatorRunes with [32; 45; 47; 46; 58; 123; 125; 63; 95] in Hin.
  repeat (apply elem_of_cons in Hin as [->|Hin]; [by rewrite Hascii|]).
  by apply elem_of_nil in Hin.
Qed.

Lemma separators_replaced name :
  Forall separator name -> Forall (fun r => r = 95) (replaced lowerRune name).
Proof.
  intros Hname.
  assert (Forall separator (replaced lowerRune name)) as Hsep.
  { unfold replaced. cbv zeta.
    match goal with
    | |- context [ReplaceAll ?x (str "&") _] => set (X := x)
    end.
    assert (Forall separator X) as HX.
    { unfold X. repeat (apply ReplaceAll_Forall; [|by_compute]).
      rewrite ToLower_fixed; [done|].
      eapply Forall_impl; [exact Hname|]. apply separator_lower. }
    assert (forall c, c ∉ separatorRunes -> Contains X [c] = false) as Habs.
    { intros c Hc. apply Contains_rune_false.
      eapply Forall_impl; [exact HX|]. intros d Hd ->. done. }
    rewrite !(ReplaceAll_absent X);
      first [exact HX | apply Habs; by_compute]. }
  pose proof (replaced_special lowerRune name) as Hspec.
  rewrite Forall_forall in Hsep, Hspec. apply Forall_forall. intros r Hr.
  specialize (Hsep r Hr). specialize (Hspec r Hr). unfold separator in Hsep.
  change separatorRunes with [32; 45; 47; 46; 58; 123; 125; 63; 95] in Hsep.
  repeat (apply elem_of_cons in Hsep as [->|Hsep];
          [first [done | exfalso; apply Hspec; by_compute]|]).
  by apply elem_of_nil in Hsep.
Qed.

Lemma underscores_collapsed y :
  Forall (fun r => r = 95) y -> Contains y (str "__") = false ->
  y = [] \/ y = [95].
Proof.
  intros Hy Hno. destruct y as [|a [|b y]]; [by left| |].
  - apply Forall_cons in Hy as [-> _]. by right.
  - apply Forall_cons in Hy as [-> Hy]. apply Forall_cons in Hy as [-> _].
    exfalso. cbn [Contains HasPrefix] in Hno.
    change (str "__") with [95; 95] in Hno. cbn [HasPrefix] in Hno.
    rewrite !N.eqb_refl, HasPrefix_nil in Hno. discriminate.
Qed.

End Fallback.

(** X3: a name made only of separators (space, [-], [/], [.], [:], [{],
    [}], [?], [_]), the empty name included, gets the fallback name. *)
Theorem sanitizeToolName_fallback (lowerRune : rune -> rune) (name : GoString) :
  lower_ascii lowerRune ->
  Forall (fun r => r ∈ separatorRunes) name ->
  sanitizeToolName lowerRune name = str "unnamed_tool".
Proof.
  intros Hascii Hname. rewrite sanitizeToolName_unfold. cbv zeta.
  pose proof (separators_replaced lowerRune Hascii name Hname) as Hrep.
  pose proof (collapseUnderscores_done (replaced lowerRune name)) as Hdone.
  assert (Forall (fun r => r = 95) (collapseUnderscores (replaced lowerRune name)))
    as Hall by (by apply collapseUnderscores_Forall).
  destruct (underscores_collapsed _ Hall Hdone) as [->| ->]; by vm_compute.
Qed.

Lemma sanitizeToolName_fallback_witness :
  sanitizeToolName asciiLower (str "/{}.. -?_:") = str "unnamed_tool".
Proof.
  apply (sanitizeToolName_fallback asciiLower (str "/{}.. -?_:") asciiLower_ascii).
  by_compute.
Defined.

(** ** Tool names *)

Section NamePrefix.
Variable lowerRune : rune -> rune.
Implicit Types (a b p c d s : GoString).

Lemma ReplaceAll_rune_app a b old new :
  length old = 1%nat ->
  ReplaceAll (a ++ b) old new = ReplaceAll a old new ++ ReplaceAll b old new.
Proof.
  destruct old as [|o [|? ?]]; try done. intros _. unfold ReplaceAll.
  induction a as [|x a IH]; [done|].
  cbn [app replaceFrom HasPrefix length Nat.sub].
  rewrite !HasPrefix_nil, !andb_true_r. rewrite IH.
  destruct (o =? x); [by rewrite <-app_assoc|done].
Qed.

Lemma replaced_app a b :
  replaced lowerRune (a ++ b) = replaced lowerRune a ++ replaced lowerRune b.
Proof.
  unfold replaced. cbv zeta. unfold ToLower. rewrite fmap_app.
  by rewrite !ReplaceAll_rune_app by reflexivity.
Qed.

Lemma replaced_fixed p : Sanitized lowerRune p -> replaced lowerRune p = p.
Proof.
  intros [_ Hlow Hspec _ _ _]. unfold replaced. cbv zeta.
  rewrite (ToLower_fixed _ _ Hlow).
  repeat (rewrite (ReplaceAll_absent p);
          [|eapply Contains_special_false;
            [vm_compute; reflexivity | by_compute | exact Hspec]]).
  reflexivity.
Qed.

Lemma HasSuffix_rune_cons x s r :
  s <> [] -> HasSuffix (x :: s) [r] = HasSuffix s [r].
Proof.
  intros Hs. apply eq_true_iff_eq. rewrite !HasSuffix_spec. split.
  - intros [t Ht]. destruct t as [|y t]; cbn [app] in Ht.
    + injection Ht as _ Hs'. done.
    + injection Ht as _ Hs'. by exists t.
  - intros [t ->]. by exists (x :: t).
Qed.

Lemma HasSuffix_rune_app p s r :
  s <> [] -> HasSuffix (p ++ s) [r] = HasSuffix s [r].
Proof.
  intros Hs. induction p as [|x p IH]; [done|].
  cbn [app]. rewrite HasSuffix_rune_cons; [done|]. by destruct p, s.
Qed.

(** One pass and the whole loop leave a prefix alone that has no ["__"]
    and does not end with an underscore. *)
Lemma collapse_pass_prefix p b :
  Contains p (str "__") = false -> HasSuffix p (str "_") = false ->
  replaceFrom (str "__") (str "_") (p ++ b) 0
  = p ++ replaceFrom (str "__") (str "_") b 0
  /\ Contains (p ++ b) (str "__") = Contains b (str "__").
Proof.
  change (str "__") with [95; 95]. change (str "_") with [95].
  induction p as [|x p IH]; [done|]. intros Hno Hsuf.
  assert (HasPrefix (x :: p ++ b) [95; 95] = false) as Hhere.
  { destruct p as [|y p].
    - cbn [HasPrefix]. destruct (N.eqb_spec 95 x) as [<-|]; [|done].
      by vm_compute in Hsuf.
    - cbn [Contains] in Hno. apply orb_false_iff in Hno as [Hno _].
      cbn [HasPrefix app] in Hno |- *. by rewrite HasPrefix_nil in *. }
  assert (Contains p [95; 95] = false) as Hno' by by eapply Contains_false_tail.
  destruct p as [|y p].
  - cbn [app replaceFrom Contains] in *. by rewrite Hhere.
  - rewrite HasSuffix_rune_cons in Hsuf by done.
    destruct (IH Hno' Hsuf) as [IH1 IH2].
    cbn [app replaceFrom Contains] in *. rewrite Hhere. cbn [orb].
    split; [by rewrite IH1|exact IH2].
Qed.

Lemma collapseLoop_prefix n p b :
  Contains p (str "__") = false -> HasSuffix p (str "_") = false ->
  collapseLoop n (p ++ b) = p ++ collapseLoop n b.
Proof.
  intros Hno Hsuf. revert b. induction n as [|n IH]; intros b; [done|].
  cbn [collapseLoop]. destruct (collapse_pass_prefix p b Hno Hsuf) as [H1 H2].
  rewrite H2. destruct (Contains b (str "__")); [|done].
  change (ReplaceAll (p ++ b) (str "__") (str "_"))
    with (replaceFrom (str "__") (str "_") (p ++ b) 0).
  rewrite H1. apply IH.
Qed.

Lemma collapseUnderscores_prefix p b :
  Contains p (str "__") = false -> HasSuffix p (str "_") = false ->
  collapseUnderscores (p ++ b) = p ++ collapseUnderscores b.
Proof.
  intros Hno Hsuf. unfold collapseUnderscores.
  rewrite collapseLoop_prefix by done. f_equal.
  apply collapseLoop_fuel; rewrite ?length_app; lia.
Qed.

Lemma TrimSuffix_prefix p c :
  HasSuffix p (str "_") = false ->
  TrimSuffix (p ++ c) (str "_") = p ++ TrimSuffix c (str "_").
Proof.
  intros Hsuf. destruct (TrimSuffix_cases c (str "_")) as [[E ->]|(t & -> & ->)].
  - unfold TrimSuffix. destruct c as [|x c].
    + by rewrite app_nil_r, Hsuf.
    + change (str "_") with [95] in *. rewrite HasSuffix_rune_app by done.
      match goal with
      | |- (if ?t then _ else _) = _ => assert (t = false) as -> by exact E
      end.
      done.
  - by rewrite app_assoc, TrimSuffix_app.
Qed.

Lemma TrimPrefix_prefix p d :
  p <> [] -> HasPrefix p (str "_") = false ->
  TrimPrefix (p ++ d) (str "_") = p ++ d.
Proof.
  intros Hne Hpre. unfold TrimPrefix. destruct p as [|x p]; [done|].
  change (str "_") with [95] in *. cbn [app HasPrefix] in *.
  rewrite HasPrefix_nil in *. by rewrite Hpre.
Qed.

(** A sanitized prefix comes out of the sanitizer untouched, whatever
    follows it. *)
Lemma sanitizeToolName_prefix p b :
  Sanitized lowerRune p ->
  sanitizeToolName lowerRune (p ++ b)
  = p ++ TrimSuffix (collapseUnderscores (replaced lowerRune b)) (str "_").
Proof.
  intros Hp. pose proof Hp as [Hne _ _ Hdbl Hpre Hsuf].
  rewrite sanitizeToolName_unfold. cbv zeta.
  rewrite replaced_app, (replaced_fixed p Hp).
  rewrite collapseUnderscores_prefix, TrimSuffix_prefix, TrimPrefix_prefix by done.
  rewrite bool_decide_false; [done|]. by destruct p.
Qed.

End NamePrefix.

(** X4: every tool of a document is named after the document: its name
    begins with the sanitized title, which is also the name of the
    server. *)
Theorem tool_names_begin_with_title (L : Lib) (lowerRune : rune -> rune)
    (baseURL : GoString) (info : APIInfo) (apis : list APIEndpoint) (t : Tool) :
  lower_ascii lowerRune -> lower_idempotent lowerRune ->
  t ∈ NewMCPFromCustomParser L lowerRune baseURL info apis ->
  HasPrefix (tool_name t) (sanitizeToolName lowerRune (Title info)) = true.
Proof.
  intros Hascii Hidem Ht. unfold NewMCPFromCustomParser in Ht. cbv zeta in Ht.
  apply list_elem_of_fmap in Ht as (api & -> & _). cbn [tool_name buildTool].
  rewrite sanitizeToolName_prefix by by apply sanitizeToolName_Sanitized.
  apply HasPrefix_spec. eauto.
Qed.

Lemma tool_names_begin_with_title_witness :
  let info := {| Title := str "Pet Store"; Version := str "1.0" |} in
  let api :=
    {| OperationID := str "listPets"; Summary := str ""; Description := str "";
       Method := str "GET"; Path := str "/pets"; APIParameters := [];
       RequestBody_ := None |} in
  HasPrefix
    (tool_name (buildTool Demo.lib asciiLower (str "http://api")
                  (sanitizeToolName asciiLower (Title info)) api))
    (sanitizeToolName asciiLower (Title info)) = true.
Proof.
  intros info api.
  apply (tool_names_begin_with_title Demo.lib asciiLower (str "http://api") info
           [api] _ asciiLower_ascii asciiLower_idempotent).
  apply list_elem_of_singleton. reflexivity.
Defined.

(** ** The parameter groups *)

(** X5: when several parameters of one location share a name, the
    property of the group is the one of the last of them; a name no
    parameter of that location has is not in the group. *)
Theorem parameter_last_writer_wins (ps : list APIParameter) (name : GoString) :
  pathProps (foldl addParameter noParams ps) !! name
  = paramProp <$> last (filter (fun p => In p = str "path" /\ Name p = name) ps)
  /\ queryProps (foldl addParameter noParams ps) !! name
    = paramProp <$> last (filter (fun p => In p = str "query" /\ Name p = name) ps).
Proof. split; [apply pathProps_lookup|apply queryProps_lookup]. Qed.

(** X6: the required list of the path group and of the query group is the
    list of the names of the required parameters of that location, in the
    order of the operation, repetitions included. *)
Theorem required_lists_in_order (ps : list APIParameter) :
  requiredPathParams (foldl addParameter noParams ps)
  = Name <$> filter (fun p => In p = str "path" /\ ParamRequired p = true) ps
  /\ requiredQueryParams (foldl addParameter noParams ps)
    = Name <$> filter (fun p => In p = str "query" /\ ParamRequired p = true) ps.
Proof.
  induction ps as [|x ps [IHp IHq]] using rev_ind; [done|].
  rewrite foldl_app, !filter_app, !filter_cons, !filter_nil, !fmap_app.
  cbn [foldl].
  destruct (addParameter_cases (foldl addParameter noParams ps) x)
    as [[Hin ->]|[[Hin ->]|(Hq & Hp & ->)]];
    cbn [requiredPathParams requiredQueryParams]; rewrite IHp, IHq, Hin || rewrite IHp, IHq.
  - rewrite (decide_False (P := str "query" = str "path" /\ _))
      by (intros [? _]; by apply query_is_not_path).
    rewrite app_nil_r. split; [done|].
    destruct (ParamRequired x); [by rewrite decide_True|].
    rewrite decide_False by (by intros [_ ?]). by rewrite app_nil_r.
  - rewrite (decide_False (P := str "path" = str "query" /\ _))
      by (intros [? _]; by apply query_is_not_path).
    rewrite app_nil_r. split; [|done].
    destruct (ParamRequired x); [by rewrite decide_True|].
    rewrite decide_False by (by intros [_ ?]). by rewrite app_nil_r.
  - rewrite !decide_False by (by intros [? _]). by rewrite !app_nil_r.
Qed.

(** X7: a parameter whose location is neither [query] nor [path] (a header
    or a cookie parameter) leaves no trace in the groups. *)
Theorem other_locations_are_dropped (ps : list APIParameter) :
  foldl addParameter noParams ps
  = foldl addParameter noParams
      (filter (fun p => In p = str "query" \/ In p = str "path") ps).
Proof.
  generalize noParams. induction ps as [|x ps IH]; intros g; [done|].
  rewrite filter_cons. cbn [foldl].
  destruct (addParameter_cases g x) as [[Hin E]|[[Hin E]|(Hq & Hp & E)]].
  - rewrite decide_True by by left. cbn [foldl]. apply IH.
  - rewrite decide_True by by right. cbn [foldl]. apply IH.
  - rewrite decide_False by (by intros [?|?]). rewrite E. apply IH.
Qed.

(** ** Which groups a tool has *)

Section Groups.
Variable L : Lib.
Implicit Types (ps : list APIParameter) (g : ParamGroups).

Lemma last_filter_Some {A} (P : A -> Prop) `{!forall x, Decision (P x)} (l : list A) :
  is_Some (last (filter P l)) <-> Exists P l.
Proof.
  rewrite last_is_Some, Exists_exists. split.
  - intros Hne. destruct (filter P l) as [|x l'] eqn:E; [done|].
    assert (x ∈ filter P l) as Hx by (rewrite E; left).
    apply list_elem_of_filter in Hx as [? ?]. eauto.
  - intros (x & Hx & HP) E.
    assert (x ∈ filter P l) as Hin by by apply list_elem_of_filter.
    rewrite E in Hin. by apply elem_of_nil in Hin.
Qed.

Lemma pathProps_size ps :
  (0 <? size (pathProps (foldl addParameter noParams ps)))%nat
  = bool_decide (Exists (fun p => In p = str "path") ps).
Proof.
  apply eq_true_iff_eq. rewrite Nat.ltb_lt, bool_decide_eq_true.
  rewrite <-Nat.neq_0_lt_0, map_size_ne_0_lookup. split.
  - intros (name & Hsome). rewrite pathProps_lookup in Hsome.
    apply fmap_is_Some, last_filter_Some in Hsome.
    eapply Exists_impl; [exact Hsome|]. by intros p [? _].
  - intros (p & Hp & Hin)%Exists_exists. exists (Name p).
    rewrite pathProps_lookup. apply fmap_is_Some, last_filter_Some.
    apply Exists_exists. by exists p.
Qed.

Lemma queryProps_size ps :
  (0 <? size (queryProps (foldl addParameter noParams ps)))%nat
  = bool_decide (Exists (fun p => In p = str "query") ps).
Proof.
  apply eq_true_iff_eq. rewrite Nat.ltb_lt, bool_decide_eq_true.
  rewrite <-Nat.neq_0_lt_0, map_size_ne_0_lookup. split.
  - intros (name & Hsome). rewrite queryProps_lookup in Hsome.
    apply fmap_is_Some, last_filter_Some in Hsome.
    eapply Exists_impl; [exact Hsome|]. by intros p [? _].
  - intros (p & Hp & Hin)%Exists_exists. exists (Name p).
    rewrite queryProps_lookup. apply fmap_is_Some, last_filter_Some.
    apply Exists_exists. by exists p.
Qed.

Lemma bodyOptions_names (rb : option RequestBody) :
  obj_name <$> bodyOptions L rb =
  match rb with
  | Some body => if bool_decide (BodyContent body = ∅) then [] else [str "requestBody"]
  | None => []
  end.
Proof.
  destruct rb as [body|]; [|done]. unfold bodyOptions.
  case_bool_decide as E.
  - by rewrite E, map_size_empty.
  - apply map_size_non_empty_iff in E. destruct (size (BodyContent body)); [done|].
    cbn [Nat.ltb Nat.leb]. by destruct (foldl _ _ _).
Qed.

End Groups.

(** X8: the groups of a tool, by name and in order: [searchParams] when
    the operation has a query parameter, then [pathNames] when it has a
    path parameter, then [requestBody] when its request body declares a
    content entry; no other group, and none twice. *)
Theorem tool_group_names (L : Lib) (lowerRune : rune -> rune)
    (baseURL prefix : GoString) (api : APIEndpoint) :
  obj_name <$> tool_objects (buildTool L lowerRune baseURL prefix api) =
  (if bool_decide (Exists (fun p => In p = str "query") (APIParameters api))
   then [str "searchParams"] else [])
  ++ (if bool_decide (Exists (fun p => In p = str "path") (APIParameters api))
      then [str "pathNames"] else [])
  ++ match RequestBody_ api with
     | Some body =>
         if bool_decide (BodyContent body = ∅) then [] else [str "requestBody"]
     | None => []
     end.
Proof.
  cbn [buildTool tool_objects]. rewrite fmap_app, bodyOptions_names.
  unfold paramOptions. rewrite fmap_app, queryProps_size, pathProps_size.
  rewrite <-app_assoc. by repeat case_bool_decide.
Qed.

(** ** Required names *)

Section RequiredNames.
Variable L : Lib.

Lemma requiredHaveProps_insert props required name prop :
  requiredHaveProps props required ->
  requiredHaveProps (<[name := prop]> props) required
  /\ requiredHaveProps (<[name := prop]> props) (required ++ [name]).
Proof.
  intros H. split; intros n Hn.
  - apply lookup_insert_is_Some'. right. by apply H.
  - apply lookup_insert_is_Some'. apply elem_of_app in Hn as [Hn|Hn%list_elem_of_singleton].
    + right. by apply H.
    + by left.
Qed.

Lemma parameters_required_have_props (ps : list APIParameter) :
  let g := foldl addParameter noParams ps in
  requiredHaveProps (pathProps g) (requiredPathParams g)
  /\ requiredHaveProps (queryProps g) (requiredQueryParams g).
Proof.
  cbv zeta. apply (foldl_invariant addParameter (fun _ g =>
    requiredHaveProps (pathProps g) (requiredPathParams g)
    /\ requiredHaveProps (queryProps g) (requiredQueryParams g))).
  - split; intros n Hn; by apply elem_of_nil in Hn.
  - intros _ x g [Hp Hq].
    destruct (addParameter_cases g x) as [[_ ->]|[[_ ->]|(_ & _ & ->)]];
      cbn [pathProps requiredPathParams queryProps requiredQueryParams];
      [split; [done|] | split; [|done] | done];
      destruct (ParamRequired x); by apply requiredHaveProps_insert.
Qed.

Lemma body_required_have_props (content : gmap GoString MediaType) :
  let acc := foldl (addMediaType L) (∅, []) (range_ L MediaType content) in
  requiredHaveProps acc.1 acc.2.
Proof.
  cbv zeta. apply (foldl_invariant (addMediaType L)
                     (fun _ acc => requiredHaveProps acc.1 acc.2)).
  - intros n Hn. by apply elem_of_nil in Hn.
  - intros _ kv acc Hacc. unfold addMediaType.
    destruct (MediaSchema kv.2) as [sch|]; [|done].
    apply (foldl_invariant (addBodyProperty (Required sch))
             (fun _ acc' => requiredHaveProps acc'.1 acc'.2)); [done|].
    intros _ [k psch] acc' Hacc'. unfold addBodyProperty. cbn [fst snd].
    destruct (isRequiredField k (Required sch)); by apply requiredHaveProps_insert.
Qed.

End RequiredNames.

(** X9: in every group of every tool, each name of the required list is
    the name of a property of that group. *)
Theorem required_names_are_properties (L : Lib) (lowerRune : rune -> rune)
    (baseURL prefix : GoString) (api : APIEndpoint) (o : ObjectOption) (n : GoString) :
  o ∈ tool_objects (buildTool L lowerRune baseURL prefix api) ->
  n ∈ obj_required o ->
  is_Some (obj_properties o !! n).
Proof.
  cbn [buildTool tool_objects]. intros Ho Hn.
  destruct (parameters_required_have_props (APIParameters api)) as [Hp Hq].
  cbv zeta in Hp, Hq.
  apply elem_of_app in Ho as [Ho|Ho].
  - unfold paramOptions in Ho. apply elem_of_app in Ho as [Ho|Ho];
      destruct (0 <? size _)%nat; try (by apply elem_of_nil in Ho);
      apply list_elem_of_singleton in Ho as ->; cbn in *; auto.
  - unfold bodyOptions in Ho. destruct (RequestBody_ api) as [body|];
      [|by apply elem_of_nil in Ho].
    destruct (0 <? size _)%nat; [|by apply elem_of_nil in Ho].
    pose proof (body_required_have_props L (BodyContent body)) as Hb.
    cbv zeta in Hb. destruct (foldl _ _ _) as [props req].
    apply list_elem_of_singleton in Ho as ->. cbn in *. auto.
Qed.

Lemma required_names_are_properties_witness :
  let sch (ty : string) :=
    {| Type_ := str ty; SchemaDescription := str ""; Enum := None;
       Format := str ""; Default := None; Items := None; Properties := None;
       Required := [] |} in
  let api :=
    {| OperationID := str "getUser"; Summary := str ""; Description := str "";
       Method := str "GET"; Path := str "/users/{id}";
       APIParameters :=
         [ {| Name := str "id"; In := str "path"; ParamRequired := true;
              ParamDescription := str "user id"; ParamSchema := sch "integer"%string |} ];
       RequestBody_ := None |} in
  let o := {| obj_name := str "pathNames";
              obj_description := str "path parameters for the tool";
              obj_properties :=
                {[ str "id" := makeProp true (str "user id") (sch "integer"%string) ]};
              obj_required := [str "id"] |} in
  is_Some (obj_properties o !! str "id").
Proof.
  intros sch api o.
  apply (required_names_are_properties Demo.lib asciiLower (str "http://api")
           (str "api") api o (str "id")).
  - apply list_elem_of_singleton. by vm_compute.
  - apply list_elem_of_singleton. reflexivity.
Defined.

(** ** The body group of a single media type *)

Section SingleMediaType.
Variable L : Lib.
Hypothesis Hrange : range_ok L.

Lemma range_singleton {V} (k : GoString) (v : V) :
  range_ L V {[ k := v ]} = [(k, v)].
Proof.
  pose proof (Hrange V {[ k := v ]}) as H. rewrite map_to_list_singleton in H.
  by apply Permutation_singleton_r in H.
Qed.

Lemma foldl_addBodyProperty (required : list GoString)
    (l : list (GoString * Schema)) (m0 : gmap GoString PropObject)
    (r0 : list GoString) :
  NoDup l.*1 ->
  let acc := foldl (addBodyProperty required) (m0, r0) l in
  (forall name,
     acc.1 !! name =
     match (list_to_map l : gmap GoString Schema) !! name with
     | Some propSchema => Some (bodyProp required name propSchema)
     | None => m0 !! name
     end)
  /\ acc.2 = r0 ++ filter (fun n => isRequiredField n required = true) l.*1.
Proof.
  revert m0 r0. induction l as [|[k psch] l IH]; intros m0 r0 Hnd; cbn [foldl].
  - cbv zeta. cbn [fst snd]. split; [|by rewrite app_nil_r].
    intros name. by rewrite list_to_map_nil, lookup_empty.
  - apply NoDup_cons in Hnd as [Hk Hnd]. cbn [fmap list_fmap fst] in Hk.
    change (addBodyProperty required (m0, r0) (k, psch))
      with (<[k := bodyProp required k psch]> m0,
            if isRequiredField k required then r0 ++ [k] else r0).
    destruct (IH (<[k := bodyProp required k psch]> m0)
                (if isRequiredField k required then r0 ++ [k] else r0) Hnd)
      as [IH1 IH2].
    cbv zeta in IH1, IH2 |- *. split.
    + intros name. rewrite IH1, list_to_map_cons.
      destruct (decide (name = k)) as [->|Hne].
      * by rewrite lookup_insert_eq, (not_elem_of_list_to_map_1 _ _ Hk), lookup_insert_eq.
      * rewrite !lookup_insert_ne by done. done.
    + rewrite IH2, fmap_cons, filter_cons. cbn [fst].
      destruct (isRequiredField k required) eqn:E.
      * rewrite decide_True by done. by rewrite <-app_assoc.
      * rewrite decide_False by done. done.
Qed.

End SingleMediaType.

(** X10: when the request body declares one media type with a schema, the
    [requestBody] group has exactly the properties of that schema, each
    marked required as the required-list of the schema says, and its
    required list holds exactly the property names found in that list,
    none twice. *)
Theorem single_media_type_body (L : Lib) (mediaType : GoString) (sch : Schema) :
  range_ok L ->
  let props := default ∅ (Properties sch) in
  exists o,
    bodyOptions L (Some {| BodyContent :=
                     {[ mediaType := {| MediaSchema := Some sch |} ]} |}) = [o]
    /\ obj_name o = str "requestBody"
    /\ (forall name,
          obj_properties o !! name
          = bodyProp (Required sch) name <$> props !! name)
    /\ obj_required o
       ≡ₚ filter (fun n => isRequiredField n (Required sch) = true)
            (map_to_list props).*1.
Proof.
  intros Hr props. unfold bodyOptions. cbn [BodyContent].
  rewrite map_size_singleton. cbn [Nat.ltb Nat.leb].
  rewrite (range_singleton L Hr). cbn [foldl]. unfold addMediaType.
  cbn [snd MediaSchema]. fold props.
  assert (NoDup (range_ L Schema props).*1) as Hnd.
  { rewrite (Hr Schema props). apply NoDup_fst_map_to_list. }
  destruct (foldl_addBodyProperty (Required sch) (range_ L Schema props) ∅ [] Hnd)
    as [H1 H2].
  cbv zeta in H1, H2. destruct (foldl _ _ _) as [bodyProps required].
  cbn [fst snd] in H1, H2. eexists. split; [reflexivity|].
  cbn [obj_name obj_properties obj_required]. split; [done|]. split.
  - intros name. rewrite H1.
    assert ((list_to_map (range_ L Schema props) : gmap GoString Schema) = props) as ->.
    { rewrite <-(list_to_map_to_list props) at 2.
      apply list_to_map_proper; [done|]. apply Hr. }
    destruct (props !! name); by rewrite ?lookup_empty.
  - rewrite H2. cbn [app]. by rewrite (Hr Schema props).
Qed.

Lemma single_media_type_body_witness :
  let idSchema :=
    {| Type_ := str "integer"; SchemaDescription := str "id"; Enum := None;
       Format := str ""; Default := None; Items := None; Properties := None;
       Required := [] |} in
  let sch :=
    {| Type_ := str "object"; SchemaDescription := str ""; Enum := None;
       Format := str ""; Default := None; Items := None;
       Properties := Some {[ str "id" := idSchema ]};
       Required := [str "id"] |} in
  exists o,
    bodyOptions Demo.lib (Some {| BodyContent :=
      {[ str "application/json" := {| MediaSchema := Some sch |} ]} |}) = [o]
    /\ obj_properties o !! str "id"
       = Some (makeProp true (str "id") idSchema)
    /\ obj_required o ≡ₚ [str "id"].
Proof.
  intros idSchema sch.
  destruct (single_media_type_body Demo.lib (str "application/json") sch
              Demo_range_ok) as (o & Ho & _ & Hprops & Hreq).
  exists o. split; [exact Ho|]. split.
  - rewrite Hprops. by vm_compute.
  - rewrite Hreq. by vm_compute.
Defined.

(** ** Flat arguments *)

Section FlatArguments.
Variable L : Lib.
Hypothesis Hrange : range_ok L.
Variables (method url : GoString) (extraHeaders : gmap GoString GoString).
Implicit Types (h : Heap) (params : gmap GoString Value).

Lemma classify_flat_maps h params :
  flatArguments params ->
  let g := classify L url h params in
  deref (heap g) (pathParams g) = filter (fun kv => isPathArgument url kv = true) params
  /\ deref (heap g) (bodyParams g) = filter (fun kv => isPathArgument url kv = false) params
  /\ deref (heap g) (queryParams g) = ∅.
Proof.
  intros Hflat. destruct (classify_flat L url h params Hrange Hflat) as (Hp & Hb & Hq).
  cbv zeta in Hp, Hb, Hq |- *. split; [|split; [|done]].
  - apply map_eq. intros k. apply option_eq. intros v.
    rewrite Hp, map_lookup_filter_Some. unfold isPathArgument. cbn [fst]. tauto.
  - apply map_eq. intros k. apply option_eq. intros v.
    rewrite Hb, map_lookup_filter_Some. unfold isPathArgument. cbn [fst]. tauto.
Qed.

Lemma range_empty {V} : range_ L V ∅ = [].
Proof.
  pose proof (Hrange V ∅) as H. rewrite map_to_list_empty in H.
  by apply Permutation_nil_r in H.
Qed.

Lemma assembleRequest_no_query h finalURL body :
  assembleRequest L method extraHeaders h finalURL ∅ body =
  match marshalBody L h body with
  | inr err => inr (errorText L "Error marshaling body parameters: " err)
  | inl reqBody =>
      match NewRequest L method finalURL reqBody with
      | inr err => inr (errorText L "Error creating request: " err)
      | inl req => inl (setHeaders L extraHeaders req)
      end
  end.
Proof. reflexivity. Qed.

End FlatArguments.

(** X11: with flat arguments (no group key holds a map) every argument
    becomes a path parameter or a body parameter, never both, and none is
    lost. *)
Theorem flat_arguments_partition (L : Lib) (url : GoString) (h : Heap)
    (params : gmap GoString Value) :
  range_ok L -> flatArguments params ->
  let g := classify L url h params in
  deref (heap g) (pathParams g) ∪ deref (heap g) (bodyParams g) = params
  /\ deref (heap g) (pathParams g) ##ₘ deref (heap g) (bodyParams g).
Proof.
  intros Hr Hflat. cbv zeta.
  destruct (classify_flat_maps L Hr url h params Hflat) as (-> & -> & _).
  split.
  - rewrite <-(map_filter_union_complement
                 (fun kv => isPathArgument url kv = true) params) at 3.
    f_equal. apply map_filter_ext. intros k v _. by rewrite not_true_iff_false.
  - apply map_disjoint_spec. intros k v1 v2.
    rewrite !map_lookup_filter_Some. unfold isPathArgument. cbn [fst].
    intros [_ H1] [_ H2]. congruence.
Qed.

Lemma flatArguments_fixture :
  flatArguments {[ str "id" := VNumber 1; str "name" := VString (str "x") ]}.
Proof. by vm_compute. Qed.

Lemma flat_arguments_partition_witness :
  let params : gmap GoString Value :=
    {[ str "id" := VNumber 1; str "name" := VString (str "x") ]} in
  let g := classify Demo.lib (str "/users/{id}") ∅ params in
  deref (heap g) (pathParams g) ∪ deref (heap g) (bodyParams g) = params
  /\ deref (heap g) (pathParams g) ##ₘ deref (heap g) (bodyParams g).
Proof.
  exact (flat_arguments_partition Demo.lib (str "/users/{id}") ∅ _
           Demo_range_ok flatArguments_fixture).
Defined.

(** X12: with flat arguments the handler never parses the URL and adds no
    query string: the request goes to the URL the path loop leaves, with
    the arguments that are not path parameters as its body. *)
Theorem flat_arguments_request (L : Lib) (method url : GoString)
    (extraHeaders : gmap GoString GoString) (h : Heap)
    (params : gmap GoString Value) :
  range_ok L -> flatArguments params ->
  let h' := heap (classify L url h params) in
  let pathURL :=
    resolvePath L url h'
      (range_ L Value (filter (fun kv => isPathArgument url kv = true) params)) in
  buildRequest L method url extraHeaders h params =
  match marshalBody L h' (filter (fun kv => isPathArgument url kv = false) params) with
  | inr err => inr (errorText L "Error marshaling body parameters: " err)
  | inl reqBody =>
      match NewRequest L method pathURL reqBody with
      | inr err => inr (errorText L "Error creating request: " err)
      | inl req => inl (setHeaders L extraHeaders req)
      end
  end.
Proof.
  intros Hr Hflat h' pathURL. unfold buildRequest. cbv zeta.
  destruct (classify_flat_maps L Hr url h params Hflat) as (-> & -> & ->).
  apply assembleRequest_no_query.
Qed.

Lemma flat_arguments_request_witness :
  let params : gmap GoString Value :=
    {[ str "id" := VNumber 1; str "name" := VString (str "x") ]} in
  match buildRequest Demo.lib (str "PUT") (str "http://api/users/{id}") ∅ ∅ params with
  | inl req => req_URL req = str "http://api/users/1" /\ is_Some (req_Body req)
  | inr _ => False
  end.
Proof.
  intros params.
  rewrite (flat_arguments_request Demo.lib (str "PUT") (str "http://api/users/{id}")
             ∅ ∅ params Demo_range_ok flatArguments_fixture).
  vm_compute. split; [reflexivity|]. eexists. reflexivity.
Defined.

(** X13: an invocation without arguments sends the URL as configured,
    with no body; only the creation of the request can fail before the
    network call. *)
Theorem no_arguments_request (L : Lib) (method url : GoString)
    (extraHeaders : gmap GoString GoString) (h : Heap) :
  range_ok L ->
  buildRequest L method url extraHeaders h ∅ =
  match NewRequest L method url None with
  | inr err => inr (errorText L "Error creating request: " err)
  | inl req => inl (setHeaders L extraHeaders req)
  end.
Proof.
  intros Hr. unfold buildRequest. cbv zeta.
  assert (flatArguments ∅) as Hflat by done.
  destruct (classify_flat_maps L Hr url h ∅ Hflat) as (-> & -> & ->).
  rewrite !map_filter_empty, (range_empty L Hr).
  rewrite assembleRequest_no_query. unfold marshalBody, len.
  by rewrite map_size_empty.
Qed.

Lemma no_arguments_request_witness :
  buildRequest Demo.lib (str "GET") (str "http://api/pets") ∅ ∅ ∅
  = inl {| req_Method := str "GET"; req_URL := str "http://api/pets";
           req_Body := None; req_Header := ∅ |}.
Proof.
  rewrite (no_arguments_request Demo.lib (str "GET") (str "http://api/pets") ∅ ∅
             Demo_range_ok).
  by vm_compute.
Defined.

(** ** The order of the path loop *)

Lemma find_key (n : GoString) (l : list (GoString * Value)) :
  find (fun kv => bool_decide (n = kv.1)) l
  = (fun v => (n, v)) <$> (list_to_map l : gmap GoString Value) !! n.
Proof.
  induction l as [|[k v] l IH]; [done|].
  cbn [find fst]. rewrite list_to_map_cons. case_bool_decide as E.
  - subst k. by rewrite lookup_insert_eq.
  - by rewrite lookup_insert_ne.
Qed.

Lemma fill_Permutation (render : Value -> GoString)
    (entries entries' : list (GoString * Value)) (t : Token) :
  NoDup entries.*1 -> entries ≡ₚ entries' ->
  fill render entries t = fill render entries' t.
Proof.
  intros Hnd Hperm. destruct t as [text|n]; [done|]. cbn [fill].
  rewrite !find_key.
  by rewrite (list_to_map_proper (M := gmap GoString) entries entries' Hnd Hperm).
Qed.

(** X14: on a template whose braces delimit placeholders, and with names
    and rendered values free of braces, the URL the path loop produces
    does not depend on the order in which it visits the parameters. *)
Theorem resolvePath_order_independent (L : Lib) (h : Heap) (ts : list Token)
    (entries entries' : list (GoString * Value)) :
  Forall tokenOK ts -> NoDup entries.*1 -> entries ≡ₚ entries' ->
  Forall (fun kv => braceFree kv.1 /\ braceFree (pathValue L h kv.2)) entries ->
  resolvePath L (flatten ts) h entries = resolvePath L (flatten ts) h entries'.
Proof.
  intros Hts Hnd Hperm Hes.
  rewrite !resolvePath_flatten; try done; [|by rewrite <-Hperm].
  f_equal. apply list_fmap_ext. intros i t _. by apply fill_Permutation.
Qed.

Lemma resolvePath_order_independent_witness :
  let ts := [Lit (str "/users/"); Hole (str "id"); Lit (str "/posts/");
             Hole (str "post")] in
  let entries := [(str "id", VNumber 7); (str "post", VString (str "p1"))] in
  resolvePath Demo.lib (flatten ts) ∅ entries
  = resolvePath Demo.lib (flatten ts) ∅ (reverse entries).
Proof.
  intros ts entries.
  apply (resolvePath_order_independent Demo.lib ∅ ts entries (reverse entries)).
  - repeat (apply Forall_cons; split; [unfold tokenOK, braceFree; by_compute|]).
    constructor.
  - by_compute.
  - by rewrite reverse_Permutation.
  - unfold braceFree. by_compute.
Defined.

(** ** Grouped arguments *)

(** X15: in grouped mode (some group has an entry) only the maps under the
    three group keys count: any other top-level argument, and a group key
    that holds something else than a map, is ignored. *)
Theorem grouped_ignores_other_arguments (L : Lib) (method url : GoString)
    (extraHeaders : gmap GoString GoString) (h : Heap)
    (params params' : gmap GoString Value) :
  allGroupsEmpty h params = false ->
  asMap (params' !! str "pathNames") = asMap (params !! str "pathNames") ->
  asMap (params' !! str "searchParams") = asMap (params !! str "searchParams") ->
  asMap (params' !! str "requestBody") = asMap (params !! str "requestBody") ->
  buildRequest L method url extraHeaders h params'
  = buildRequest L method url extraHeaders h params.
Proof.
  intros Hne Hp Hq Hb.
  assert (classify L url h params' = classify L url h params) as Hsame.
  { rewrite !classify_unfold. cbv zeta. rewrite Hp, Hq, Hb.
    destruct (classify_makes h) as (H3 & Hp0 & Hq0 & Hb0 & _).
    cbv zeta in H3, Hp0, Hq0, Hb0.
    rewrite !(deref_group h params _ _ _ H3) by done.
    unfold allGroupsEmpty in Hne. by rewrite Hne. }
  unfold buildRequest. cbv zeta. by rewrite Hsame.
Qed.

Lemma grouped_ignores_other_arguments_witness :
  let h : Heap := {[ 1%positive := {[ str "id" := VNumber 7 ]} ]} in
  let params : gmap GoString Value := {[ str "pathNames" := VMap 1%positive ]} in
  let params' : gmap GoString Value :=
    {[ str "pathNames" := VMap 1%positive; str "verbose" := VBool true;
       str "requestBody" := VString (str "ignored") ]} in
  buildRequest Demo.lib (str "GET") (str "/users/{id}") ∅ h params'
  = buildRequest Demo.lib (str "GET") (str "/users/{id}") ∅ h params.
Proof.
  intros h params params'.
  apply (grouped_ignores_other_arguments Demo.lib (str "GET") (str "/users/{id}")
           ∅ h params params'); by vm_compute.
Defined.

(** ** Query parameters that are all nil *)

Lemma appendQuery_all_nil (L : Lib) (h : Heap) (old : gmap GoString (list GoString))
    (query : gmap GoString Value) :
  map_Forall (fun _ v => v = VNil) query -> appendQuery L h old query = old.
Proof.
  intros Hnil. apply map_eq. intros k. rewrite appendQuery_lookup.
  destruct (query !! k) as [v|] eqn:E; [|done].
  by rewrite (Hnil k v E).
Qed.

(** X16: a query group that holds only nil values adds nothing to the
    query string, but the URL still goes through the parser and comes back
    with its own query re-encoded, so the invocation can fail with a URL
    parsing error. *)
Theorem nil_query_still_parses (L : Lib) (h : Heap) (finalURL : GoString)
    (query : gmap GoString Value) :
  range_ok L -> query ≠ ∅ -> map_Forall (fun _ v => v = VNil) query ->
  resolveQuery L h finalURL query =
  match url_Parse L finalURL with
  | inr err => inr err
  | inl parsedURL =>
      inl (URL_String L (URL_withRawQuery L parsedURL
             (Values_Encode L (URL_Query L parsedURL))))
  end.
Proof.
  intros Hr Hne Hnil. unfold resolveQuery, len.
  apply map_size_non_empty_iff in Hne.
  destruct (size query) as [|n]; [done|]. cbn [Nat.ltb Nat.leb].
  destruct (url_Parse L finalURL) as [u|err]; [|done].
  by rewrite foldl_addQuery_range, appendQuery_all_nil.
Qed.

Lemma nil_query_still_parses_witness :
  resolveQuery Demo.lib ∅ (str "http://api/search") {[ str "skip" := VNil ]}
  = inl (str "http://api/search").
Proof.
  rewrite (nil_query_still_parses Demo.lib ∅ (str "http://api/search")
             {[ str "skip" := VNil ]} Demo_range_ok).
  - by vm_compute.
  - apply insert_non_empty.
  - by apply map_Forall_singleton.
Defined.

Import Previous.

(** ** The earlier translator *)

Lemma Contains_app_underscores (a b : GoString) :
  Contains a (str "__") = false -> Contains b (str "__") = false ->
  HasPrefix b (str "_") = false ->
  Contains (a ++ b) (str "__") = false.
Proof.
  change (str "__") with [95; 95]. change (str "_") with [95].
  intros Ha Hb Hpre. induction a as [|c a IH]; [done|].
  pose proof (Contains_false_tail _ _ _ Ha) as Ha'.
  cbn [Contains] in Ha. apply orb_false_iff in Ha as [Hhere _].
  cbn [app Contains]. rewrite (IH Ha'), orb_false_r.
  destruct a as [|d a]; cbn [app HasPrefix] in *.
  - by rewrite Hpre, andb_false_r.
  - by rewrite HasPrefix_nil in *.
Qed.

Lemma mcplink_prefix_Sanitized (lowerRune : rune -> rune) (t : GoString) :
  lower_ascii lowerRune -> Sanitized lowerRune t ->
  Sanitized lowerRune (str "mcplink_" ++ t).
Proof.
  intros Hascii [Hne Hlow Hspec Hdbl Hpre Hsuf]. split.
  - done.
  - apply Forall_app. split; [|done]. by apply literal_lower.
  - apply Forall_app. split; [by_compute|done].
  - by apply Contains_app_underscores.
  - by vm_compute.
  - change (str "_") with [95] in *. by rewrite HasSuffix_rune_app.
Qed.

(** X17: in the earlier version of the translator every tool name begins
    with [mcplink_] followed by the sanitized title of the document. *)
Theorem previous_tool_names_begin_with_mcplink (L : Lib) (lowerRune : rune -> rune)
    (baseURL : GoString) (info : APIInfo) (apis : list APIEndpoint)
    (t : OldTool) :
  lower_ascii lowerRune -> lower_idempotent lowerRune ->
  t ∈ NewMCPFromCustomParser L lowerRune baseURL info apis ->
  HasPrefix (old_tool_name t)
    (str "mcplink_" ++ sanitizeToolName lowerRune (Title info)) = true.
Proof.
  intros Hascii Hidem Ht. unfold NewMCPFromCustomParser in Ht.
  cbv zeta in Ht. apply list_elem_of_fmap in Ht as (api & -> & _).
  unfold oldBuildTool. destruct (foldl _ _ _) as [qp pp].
  cbn [old_tool_name].
  rewrite sanitizeToolName_prefix
    by by apply mcplink_prefix_Sanitized, sanitizeToolName_Sanitized.
  apply HasPrefix_spec. eauto.
Qed.

Lemma previous_tool_names_begin_with_mcplink_witness :
  let info := {| Title := str "Pet Store"; Version := str "1.0" |} in
  let api :=
    {| OperationID := str "listPets"; Summary := str ""; Description := str "";
       Method := str "GET"; Path := str "/pets"; APIParameters := [];
       RequestBody_ := None |} in
  old_tool_name
    (oldBuildTool Demo.lib asciiLower (str "http://api")
       (str "mcplink_" ++ sanitizeToolName asciiLower (Title info)) api)
  = str "mcplink_pet_store_listpets"
  /\ HasPrefix (str "mcplink_pet_store_listpets")
       (str "mcplink_" ++ sanitizeToolName asciiLower (Title info)) = true.
Proof.
  intros info api. split; [by vm_compute|].
  assert (str "mcplink_pet_store_listpets"
          = old_tool_name
              (oldBuildTool Demo.lib asciiLower (str "http://api")
                 (str "mcplink_" ++ sanitizeToolName asciiLower (Title info)) api))
    as -> by by vm_compute.
  apply (previous_tool_names_begin_with_mcplink Demo.lib asciiLower
           (str "http://api") info [api] _ asciiLower_ascii asciiLower_idempotent).
  apply list_elem_of_singleton. reflexivity.
Defined.

Lemma oldAddParameter_cases (acc : gmap GoString OldProp * gmap GoString OldProp)
    (param : APIParameter) :
  (In param = str "query"
   /\ oldAddParameter acc param
      = (<[Name param := oldParamProp param]> acc.1, acc.2))
  \/ (In param = str "path"
   /\ oldAddParameter acc param
      = (acc.1, <[Name param := oldParamProp param]> acc.2))
  \/ (In param ≠ str "query" /\ In param ≠ str "path"
   /\ oldAddParameter acc param = acc).
Proof.
  unfold oldAddParameter, oldParamProp.
  repeat case_bool_decide; auto.
Qed.

(** X18: in the earlier version the property object of a parameter copies
    the description unchanged and carries the key [required] exactly when
    the parameter is required; with several parameters of one name and
    location the last one counts. *)
Theorem previous_parameter_properties (ps : list APIParameter) (name : GoString) :
  let acc := foldl oldAddParameter (∅, ∅) ps in
  acc.2 !! name
  = oldParamProp
      <$> last (filter (fun p => In p = str "path" /\ Name p = name) ps)
  /\ acc.1 !! name
    = oldParamProp
        <$> last (filter (fun p => In p = str "query" /\ Name p = name) ps)
  /\ (forall p, old_description (oldParamProp p) = ParamDescription p
                /\ old_required (oldParamProp p) = ParamRequired p).
Proof.
  cbv zeta. split; [|split; [|done]].
  - induction ps as [|x ps IH] using rev_ind; [done|].
    rewrite foldl_app, filter_app, filter_cons, filter_nil. cbn [foldl].
    destruct (oldAddParameter_cases (foldl oldAddParameter (∅, ∅) ps) x)
      as [[Hin ->]|[[Hin ->]|(Hq & Hp & ->)]]; cbn [fst snd].
    + rewrite decide_False, app_nil_r; [done|].
      intros [Hp _]. rewrite Hin in Hp. by apply query_is_not_path.
    + destruct (decide (Name x = name)) as [<-|Hne].
      * rewrite lookup_insert_eq, decide_True by done. by rewrite last_snoc.
      * rewrite lookup_insert_ne by done. rewrite decide_False, app_nil_r; [done|].
        by intros [_ ?].
    + rewrite decide_False, app_nil_r; [done|]. by intros [? _].
  - induction ps as [|x ps IH] using rev_ind; [done|].
    rewrite foldl_app, filter_app, filter_cons, filter_nil. cbn [foldl].
    destruct (oldAddParameter_cases (foldl oldAddParameter (∅, ∅) ps) x)
      as [[Hin ->]|[[Hin ->]|(Hq & Hp & ->)]]; cbn [fst snd].
    + destruct (decide (Name x = name)) as [<-|Hne].
      * rewrite lookup_insert_eq, decide_True by done. by rewrite last_snoc.
      * rewrite lookup_insert_ne by done. rewrite decide_False, app_nil_r; [done|].
        by intros [_ ?].
    + rewrite decide_False, app_nil_r; [done|].
      intros [Hq _]. rewrite Hin in Hq. by apply query_is_not_path.
    + rewrite decide_False, app_nil_r; [done|]. by intros [? _].
Qed.
